(** * A MySQL connection pool: shallow embedding and verified properties

    The development follows the C++ sources of the pool:
    - [Connection.h] / [Connection.cpp]: class [connection];
    - [ConfigManager.h] / [ConfigManager.cpp]: the [ConfigManager] interface
      and [createConfigManager];
    - [ConnectionPool.h] / [ConnectionPool.cpp]: class [connection_pool].

    Every member function is a Rocq function over explicit state.  Answers
    of the MySQL client library, of the C library clock and of the
    allocator are inputs (a [driver] snapshot per call site); effects that
    leave no trace in the state (log lines, condition-variable signals,
    waits, destructor runs) are returned as a list of [event]s.  A critical
    section of the pool mutex is one atomic step. *)

From Stdlib Require Import ZArith String Ascii Bool Lia.
From stdpp Require Import base list.

Local Open Scope string_scope.
Local Open Scope Z_scope.
Local Open Scope list_scope.

(** ** Machine integers *)

Module Int.
(** C++ [int]: 32-bit two's complement. *)
Definition INT_MIN : Z := - 2 ^ 31.
Definition INT_MAX : Z := 2 ^ 31 - 1.

(** Conversion to [int] / atomic wrap-around of [std::atomic_int]. *)
Definition to_int (z : Z) : Z := (z + 2 ^ 31) mod 2 ^ 32 - 2 ^ 31.

Definition in_int (z : Z) : Prop := INT_MIN <= z <= INT_MAX.

(** Conversion to [unsigned short] (the type of [_port]). *)
Definition to_ushort (z : Z) : Z := z mod 2 ^ 16.
End Int.
Export Int.

(** ** std::chrono durations *)

Module chrono.
(** A duration is a count of microseconds, the finest unit the pool
    uses. *)
Definition duration : Type := Z.
Definition microseconds (n : Z) : duration := n.
End chrono.

(** ** Effects *)

(** A driver handle ([MYSQL*] when not null). *)
Definition MYSQL : Type := positive.

Inductive log_level : Type := INFO | WARN | ERROR.

Inductive cv_status : Type := no_timeout | timeout.

(** ** class [connection] *)

Record connection : Type := Connection {
  addr : positive;          (* the object's address: its identity *)
  _conn : option MYSQL;     (* [None] is [nullptr] *)
  _alivetime : Z            (* [clock_t] *)
}.

Inductive event : Type :=
| Log (lvl : log_level) (msg : string)
| ev_notify_all                          (* cv.notify_all() *)
| ev_wait                                (* cv.wait(lock) *)
| ev_wait_for (d : chrono.duration)      (* cv.wait_for(lock, d) *)
| ev_sleep_for (d : chrono.duration)     (* this_thread::sleep_for(d) *)
| ev_mysql_close (h : MYSQL)
| ev_delete (c : connection)             (* the object is destroyed *)
| ev_thread_detach (name : string).

(** What the outside world answers during one call site. *)
Record driver : Type := Driver {
  new_addr : positive;                   (* operator new *)
  uninit : Z;                            (* an indeterminate [clock_t] *)
  mysql_init : option MYSQL;             (* mysql_init(nullptr) *)
  mysql_real_connect : option MYSQL -> bool;  (* result is not null *)
  mysql_error : string;
  mysql_ping : MYSQL -> Z;
  clock : Z;                             (* clock() *)
  raises : bool   (* a std::exception (std::bad_alloc while the by-value
                     string arguments are copied) leaves the call *)
}.

Definition set_conn (h : option MYSQL) (c : connection) : connection :=
  {| addr := addr c; _conn := h; _alivetime := _alivetime c |}.

(** [connection::connection()] *)
Definition connection_new (d : driver) : connection :=
  {| addr := new_addr d; _conn := mysql_init d; _alivetime := uninit d |}.

(** [connection::~connection()] followed by the deallocation. *)
Definition connection_delete (c : connection) : list event :=
  match _conn c with
  | Some h => [ev_mysql_close h; ev_delete c]
  | None => [ev_delete c]
  end.

(** [connection::connect]: the result of [mysql_real_connect] is compared
    with [nullptr]; the object is not modified. *)
Definition connect (c : connection) (d : driver) : bool :=
  mysql_real_connect d (_conn c).

(** [connection::reconnect] *)
Definition reconnect (c : connection) (d : driver)
  : bool * connection * list event :=
  let closing :=
    match _conn c with Some h => [ev_mysql_close h] | None => [] end in
  match mysql_init d with
  | None =>
      (false, set_conn None c,
       closing ++ [Log ERROR "MySQL initialization failed during reconnect"])
  | Some h =>
      if mysql_real_connect d (Some h)
      then (true, set_conn (Some h) c,
            closing ++ [Log INFO "MySQL connection reestablished successfully"])
      else (false, set_conn (Some h) c,
            closing ++ [Log ERROR (String.append "MySQL reconnect failed: "
                                            (mysql_error d))])
  end.

(** [connection::refreshsAliveTime] *)
Definition refreshsAliveTime (c : connection) (d : driver) : connection :=
  {| addr := addr c; _conn := _conn c; _alivetime := clock d |}.

(** [connection::getAliveTime] *)
Definition getAliveTime (c : connection) (d : driver) : Z :=
  clock d - _alivetime c.

(** [connection::isValid(int timeout = 30)] *)
Definition isValid (c : connection) (timeout : Z) (d : driver)
  : bool * list event :=
  match _conn c with
  | None =>
      (false,
       [Log INFO "MySQL connection not initialized or has been destroyed!"])
  | Some h => (if mysql_ping d h =? 0 then true else false, [])
  end.

Definition isValid_default_timeout : Z := 30.

(** ** Exceptions and results *)

Inductive exception : Type :=
| runtime_error_ptr (what : string)
    (* [throw new std::runtime_error(what)]: the thrown object is a
       pointer, which no [catch (const std::exception&)] handles *)
| runtime_error (what : string)
| bad_weak_ptr.
    (* [std::bad_weak_ptr], thrown by [shared_from_this()] *)

Inductive outcome (A : Type) : Type :=
| Returned (a : A)
| Raised (e : exception).
Arguments Returned {A} a.
Arguments Raised {A} e.

(** ** class [connection_pool]: data members *)

Record connection_pool : Type := ConnectionPool {
  _ip : string;
  _port : Z;                              (* unsigned short *)
  _username : string;
  _password : string;
  _dbname : string;
  _initSize : Z;
  _maxSize : Z;
  _maxIdleTime : Z;
  _connectionTimeout : Z;
  _connectionQue : list connection;       (* front of the queue first *)
  _connectionCnt : Z;                     (* std::atomic_int *)
  _shutdown : bool
}.

Definition set_ip (v : string) (p : connection_pool) : connection_pool :=
  ConnectionPool v (_port p) (_username p) (_password p) (_dbname p)
    (_initSize p) (_maxSize p) (_maxIdleTime p) (_connectionTimeout p)
    (_connectionQue p) (_connectionCnt p) (_shutdown p).
Definition set_port (v : Z) (p : connection_pool) : connection_pool :=
  ConnectionPool (_ip p) (to_ushort v) (_username p) (_password p) (_dbname p)
    (_initSize p) (_maxSize p) (_maxIdleTime p) (_connectionTimeout p)
    (_connectionQue p) (_connectionCnt p) (_shutdown p).
Definition set_username (v : string) (p : connection_pool) : connection_pool :=
  ConnectionPool (_ip p) (_port p) v (_password p) (_dbname p)
    (_initSize p) (_maxSize p) (_maxIdleTime p) (_connectionTimeout p)
    (_connectionQue p) (_connectionCnt p) (_shutdown p).
Definition set_password (v : string) (p : connection_pool) : connection_pool :=
  ConnectionPool (_ip p) (_port p) (_username p) v (_dbname p)
    (_initSize p) (_maxSize p) (_maxIdleTime p) (_connectionTimeout p)
    (_connectionQue p) (_connectionCnt p) (_shutdown p).
Definition set_dbname (v : string) (p : connection_pool) : connection_pool :=
  ConnectionPool (_ip p) (_port p) (_username p) (_password p) v
    (_initSize p) (_maxSize p) (_maxIdleTime p) (_connectionTimeout p)
    (_connectionQue p) (_connectionCnt p) (_shutdown p).
(** The four sizes are [int] members: a store converts to [int]. *)
Definition set_initSize (v : Z) (p : connection_pool) : connection_pool :=
  ConnectionPool (_ip p) (_port p) (_username p) (_password p) (_dbname p)
    (to_int v) (_maxSize p) (_maxIdleTime p) (_connectionTimeout p)
    (_connectionQue p) (_connectionCnt p) (_shutdown p).
Definition set_maxSize (v : Z) (p : connection_pool) : connection_pool :=
  ConnectionPool (_ip p) (_port p) (_username p) (_password p) (_dbname p)
    (_initSize p) (to_int v) (_maxIdleTime p) (_connectionTimeout p)
    (_connectionQue p) (_connectionCnt p) (_shutdown p).
Definition set_maxIdleTime (v : Z) (p : connection_pool) : connection_pool :=
  ConnectionPool (_ip p) (_port p) (_username p) (_password p) (_dbname p)
    (_initSize p) (_maxSize p) (to_int v) (_connectionTimeout p)
    (_connectionQue p) (_connectionCnt p) (_shutdown p).
Definition set_connectionTimeout (v : Z) (p : connection_pool)
  : connection_pool :=
  ConnectionPool (_ip p) (_port p) (_username p) (_password p) (_dbname p)
    (_initSize p) (_maxSize p) (_maxIdleTime p) (to_int v)
    (_connectionQue p) (_connectionCnt p) (_shutdown p).
Definition set_que (q : list connection) (p : connection_pool)
  : connection_pool :=
  ConnectionPool (_ip p) (_port p) (_username p) (_password p) (_dbname p)
    (_initSize p) (_maxSize p) (_maxIdleTime p) (_connectionTimeout p)
    q (_connectionCnt p) (_shutdown p).
(** Every write to [_connectionCnt] is an atomic read-modify-write on a
    32-bit [int]: it wraps. *)
Definition set_cnt (n : Z) (p : connection_pool) : connection_pool :=
  ConnectionPool (_ip p) (_port p) (_username p) (_password p) (_dbname p)
    (_initSize p) (_maxSize p) (_maxIdleTime p) (_connectionTimeout p)
    (_connectionQue p) (to_int n) (_shutdown p).
Definition set_shutdown (b : bool) (p : connection_pool) : connection_pool :=
  ConnectionPool (_ip p) (_port p) (_username p) (_password p) (_dbname p)
    (_initSize p) (_maxSize p) (_maxIdleTime p) (_connectionTimeout p)
    (_connectionQue p) (_connectionCnt p) b.

(** [_connectionQue.push(std::move(c))] *)
Definition que_push (c : connection) (p : connection_pool) : connection_pool :=
  set_que (_connectionQue p ++ [c]) p.
(** [_connectionCnt++] and [_connectionCnt--] *)
Definition cnt_incr (p : connection_pool) : connection_pool :=
  set_cnt (_connectionCnt p + 1) p.
Definition cnt_decr (p : connection_pool) : connection_pool :=
  set_cnt (_connectionCnt p - 1) p.

(** ** Configuration: [ConfigManager] and [createConfigManager] *)

(** The abstract interface of [ConfigManager.h]; its two implementations
    wrap the SimpleIni and yaml-cpp libraries. *)
Record ConfigManager : Type := {
  loadConfig : string -> bool;
  getString : string -> string -> string;
  getInt : string -> Z -> Z;
  getBool : string -> bool -> bool
}.

(** What the build and the file system contribute to a configuration
    load. *)
Record config_env : Type := {
  USE_SIMPLE_INI : bool;
  USE_YAML_CPP : bool;
  IniConfigManager : ConfigManager;
  YamlConfigManager : ConfigManager;
  throw_at : option (nat * string);
    (* a std::exception with this [what()] is raised inside the [try]
       block: at [0] before [loadConfig] has answered, at [S k] once the
       first [k] members have been assigned *)
  fopen_fgets : string -> option (list string)
    (* [fopen] of a path ([None]: it failed) and the buffers the
       successive [fgets] calls fill until [feof] *)
}.

Fixpoint find_last_of (c : ascii) (s : string) : option nat :=
  match s with
  | EmptyString => None
  | String a s' =>
      match find_last_of c s' with
      | Some i => Some (S i)
      | None => if Ascii.eqb a c then Some 0%nat else None
      end
  end.

Definition tolower (c : ascii) : ascii :=
  let n := nat_of_ascii c in
  if ((65 <=? n) && (n <=? 90))%nat then ascii_of_nat (n + 32) else c.

Definition string_tolower (s : string) : string :=
  string_of_list_ascii (map tolower (list_ascii_of_string s)).

(** [s.substr(pos)] *)
Definition substr_from (pos : nat) (s : string) : string :=
  substring pos (String.length s) s.

Definition createConfigManager (e : config_env) (filename : string)
  : outcome ConfigManager :=
  let ini_branch :=
    if USE_SIMPLE_INI e then Returned (IniConfigManager e)
    else Raised (runtime_error_ptr "INI support not compiled or not found!") in
  let yaml_branch :=
    if USE_YAML_CPP e then Returned (YamlConfigManager e)
    else Raised (runtime_error_ptr "YAML support not compiled or not found!") in
  let fall_through :=
    if USE_SIMPLE_INI e then Returned (IniConfigManager e)
    else Raised (runtime_error_ptr "Not implemented") in
  match find_last_of "." filename with
  | Some dotPos =>
      let extension := string_tolower (substr_from (S dotPos) filename) in
      if String.eqb "ini" extension then ini_branch
      else if String.eqb "yaml" extension || String.eqb "yml" extension
           then yaml_branch
           else fall_through
  | None => fall_through
  end.

(** ** [connection_pool::loadConfigFile] *)

Definition isspace (c : ascii) : bool :=
  let n := nat_of_ascii c in
  ((n =? 32) || ((9 <=? n) && (n <=? 13)))%nat.

Definition digit_val (c : ascii) : option Z :=
  let n := nat_of_ascii c in
  if ((48 <=? n) && (n <=? 57))%nat then Some (Z.of_nat n - 48) else None.

Fixpoint atoi_digits (acc : Z) (s : list ascii) : Z :=
  match s with
  | c :: s' =>
      match digit_val c with
      | Some d => atoi_digits (10 * acc + d) s'
      | None => acc
      end
  | [] => acc
  end.

Fixpoint skip_spaces (s : list ascii) : list ascii :=
  match s with
  | c :: s' => if isspace c then skip_spaces s' else s
  | [] => []
  end.

(** [strtol(s, NULL, 10)]: leading white space, an optional sign, decimal
    digits; a value outside [long] (64 bits) comes back as [LONG_MIN] or
    [LONG_MAX]. *)
Definition LONG_MIN : Z := - 2 ^ 63.
Definition LONG_MAX : Z := 2 ^ 63 - 1.

Definition strtol (s : string) : Z :=
  let exact :=
    match skip_spaces (list_ascii_of_string s) with
    | "-"%char :: r => - atoi_digits 0 r
    | "+"%char :: r => atoi_digits 0 r
    | r => atoi_digits 0 r
    end in
  Z.max LONG_MIN (Z.min LONG_MAX exact).

(** [atoi], as the C library has it: [(int) strtol(s, NULL, 10)]. *)
Definition atoi (s : string) : Z := to_int (strtol s).

Definition newline : string := String (ascii_of_nat 10) EmptyString.

(** One iteration of the [while(!feof(pf))] loop of the fall-back parser,
    on the buffer [str] that [fgets] filled. *)
Definition parse_line (p : connection_pool) (str : string) : connection_pool :=
  match index 0 "=" str with
  | None => p
  | Some idx =>
      let key := substring 0 idx str in
      let value :=
        match index idx newline str with
        | Some endidx => substring (S idx) (endidx - idx - 1) str
        | None => substr_from (S idx) str
            (* [endidx] is -1: the count converts to a huge [size_t] *)
        end in
      if String.eqb key "ip" then set_ip value p
      else if String.eqb key "port" then set_port (atoi value) p
      else if String.eqb key "username" then set_username value p
      else if String.eqb key "password" then set_password value p
      else if String.eqb key "dbname" then set_dbname value p
      else if String.eqb key "initSize" then set_initSize (atoi value) p
      else if String.eqb key "maxSize" then set_maxSize (atoi value) p
      else if String.eqb key "maxIdleTime" then set_maxIdleTime (atoi value) p
      else if String.eqb key "connectionTimeOut"
           then set_connectionTimeout (atoi value) p
           else p
  end.

(** The nine assignments of the [try] block, in source order. *)
Definition assignments (cm : ConfigManager)
  : list (connection_pool -> connection_pool) :=
  [ set_ip (getString cm "ip" "localhost");
    set_port (getInt cm "port" 3306);
    set_username (getString cm "username" "root");
    set_password (getString cm "password" EmptyString);
    set_dbname (getString cm "dbname" "test");
    set_initSize (getInt cm "initSize" 5);
    set_maxSize (getInt cm "maxSize" 10);
    set_maxIdleTime (getInt cm "maxIdleTime" 60);
    set_connectionTimeout (getInt cm "connectionTimeOut" 100) ].

Definition assign_all (fs : list (connection_pool -> connection_pool))
    (p : connection_pool) : connection_pool :=
  fold_left (fun q f => f q) fs p.

(** The [catch (const std::exception& e)] block. *)
Definition loadConfigFile_catch (e : config_env) (configFile what : string)
    (p : connection_pool) : bool * connection_pool * list event :=
  let ev := Log ERROR (String.append "Config loading error: " what) in
  match fopen_fgets e configFile with
  | None => (false, p, [ev; Log ERROR "Ini file is not exit!"])
  | Some lines => (true, fold_left parse_line lines p, [ev])
  end.

Definition loadConfigFile (e : config_env) (filename : string)
    (p : connection_pool) : outcome (bool * connection_pool * list event) :=
  let configFile :=
    if String.eqb filename EmptyString then "db_config.ini" else filename in
  match createConfigManager e configFile with
  | Raised x => Raised x
  | Returned configManager =>
      match throw_at e with
      | Some (O, what) => Returned (loadConfigFile_catch e configFile what p)
      | Some (S k, what) =>
          if loadConfig configManager configFile
          then Returned (loadConfigFile_catch e configFile what
                           (assign_all (take k (assignments configManager)) p))
          else Returned (false, p,
                 [Log ERROR (String.append "Failed to load config file: "
                                           configFile)])
      | None =>
          if loadConfig configManager configFile
          then Returned (true, assign_all (assignments configManager) p,
                 [Log INFO (String.append
                              "Configuration loaded successfully from "
                              configFile)])
          else Returned (false, p,
                 [Log ERROR (String.append "Failed to load config file: "
                                           configFile)])
      end
  end.

(** ** The pool mutex and the condition variable

    While a thread is blocked in [cv.wait] / [cv.wait_for], or is outside
    its critical section, the mutex is free and the other threads may
    change the guarded members.  What a thread finds when it owns the
    mutex again is an input. *)

Record shared : Type := Shared {
  seen_que : list connection;
  seen_cnt : Z;
  seen_shutdown : bool
}.

Definition resume (s : shared) (p : connection_pool) : connection_pool :=
  ConnectionPool (_ip p) (_port p) (_username p) (_password p) (_dbname p)
    (_initSize p) (_maxSize p) (_maxIdleTime p) (_connectionTimeout p)
    (seen_que s) (seen_cnt s) (seen_shutdown s).

Definition snapshot (p : connection_pool) : shared :=
  {| seen_que := _connectionQue p;
     seen_cnt := _connectionCnt p;
     seen_shutdown := _shutdown p |}.

(** ** [PooledConnection]

    A [std::unique_ptr] to a [connection] with a [std::function] deleter:
    the stored pointer.  The deleter of every handle is the lambda built in
    [getconnection]; it is [deleter] below. *)
Definition PooledConnection : Type := option connection.

(** The lambda [deleter] of [getconnection].  [poolWeakPtr.lock()] yields
    the pool while it is alive. *)
Definition deleter (poolPtr : option connection_pool) (p : option connection)
    (d : driver) : option connection_pool * list event :=
  match poolPtr with
  | Some pool =>
      match p with
      | None => (Some (cnt_decr pool), [ev_notify_all])
      | Some c =>
          let '(valid, ev) := isValid c isValid_default_timeout d in
          if valid
          then (Some (que_push (refreshsAliveTime c d) pool),
                ev ++ [ev_notify_all])
          else (Some (cnt_decr pool),
                ev ++ connection_delete c ++ [ev_notify_all])
      end
  | None =>
      (None, match p with Some c => connection_delete c | None => [] end)
  end.

(** [~unique_ptr()]: the deleter runs only on a stored pointer that is not
    null. *)
Definition PooledConnection_dtor (poolPtr : option connection_pool)
    (h : PooledConnection) (d : driver) : option connection_pool * list event :=
  match h with
  | Some c => deleter poolPtr (Some c) d
  | None => (poolPtr, [])
  end.

(** [unique_ptr::release()]: hands the stored pointer to the caller and
    leaves the handle empty; the deleter is not called. *)
Definition PooledConnection_release (h : PooledConnection)
  : option connection * PooledConnection :=
  (h, None).

(** ** [connection_pool::getconnection] *)

Inductive acquired : Type :=
| Handle (h : PooledConnection)
| Throws (e : exception)
| Waiting.                      (* still blocked in [cv.wait_for] *)

(** From [_connectionQue.pop()] to the [return]; [p] is the pool once the
    front session [conn] has been popped. *)
Definition getconnection_take (conn : connection) (p : connection_pool)
    (d : driver) : PooledConnection * connection_pool * list event :=
  let '(valid, ev0) := isValid conn isValid_default_timeout d in
  if valid then (Some conn, p, ev0 ++ [ev_notify_all])
  else
    let warn := Log WARN "Obtained invalid connection!" in
    if raises d
    then (Some conn, cnt_decr p,
          ev0 ++ [warn; ev_notify_all; ev_notify_all])
    else
      let '(_, conn1, ev1) := reconnect conn d in
      (Some (refreshsAliveTime conn1 d), p,
       ev0 ++ [warn] ++ ev1 ++ [ev_notify_all]).

(** [ws] lists what the successive returns of [cv.wait_for] deliver. *)
Fixpoint getconnection (ws : list (cv_status * shared)) (d : driver)
    (p : connection_pool) : acquired * connection_pool * list event :=
  match _connectionQue p with
  | conn :: rest =>
      let '(h, p', ev) := getconnection_take conn (set_que rest p) d in
      (Handle h, p', ev)
  | [] =>
      let waiting :=
        ev_wait_for (chrono.microseconds (_connectionTimeout p)) in
      match ws with
      | [] => (Waiting, p, [waiting])
      | (st, s) :: ws' =>
          let p' := resume s p in
          match st, _connectionQue p' with
          | timeout, [] =>
              (Throws (runtime_error "No available connections!"), p',
               [waiting; Log WARN "Obtain free connection failed!"])
          | _, _ =>
              let '(r, p'', ev) := getconnection ws' d p' in
              (r, p'', waiting :: ev)
          end
      end
  end.



(** ** [connection_pool::produceConnectionTask] *)



(** The rest of the iteration, from the [if] to [cv.notify_all()]. *)
Definition produce_body (p : connection_pool) (d : driver)
  : connection_pool * list event :=
  if _connectionCnt p <? _maxSize p
  then
    let c := connection_new d in
    let _connected := connect c d in          (* the result is discarded *)
    (cnt_incr (que_push (refreshsAliveTime c d) p), [ev_notify_all])
  else (p, [ev_notify_all]).


(** ** [connection_pool::scanRunningConnectionTask] *)

(** The first [while] loop: [que] is what is left of [_connectionQue],
    [validConns] the local queue, [i] the number of sessions popped so
    far.  The local [invalidCount] is written and never read; it is not
    carried.  [_maxIdleTime * 1000] is an [int] product, which wraps, and
    is then compared as a [clock_t]. *)
Fixpoint scan_loop (ds : nat -> driver) (i : nat) (que : list connection)
    (p : connection_pool) (validConns : list connection)
  : connection_pool * list connection * list event :=
  match que with
  | [] => (p, validConns, [])
  | conn :: rest =>
      let d := ds i in
      let '(valid, ev0) := isValid conn isValid_default_timeout d in
      let '(usable, conn1, ev1) :=
        if valid then (true, conn, [])
        else
          let '(ok, c1, ev) := reconnect conn d in
          (ok, c1,
           Log WARN "Discovered invalid connection, prepare to reconnect"
             :: ev) in
      if negb usable
      then
        let '(p', v, ev) := scan_loop ds (S i) rest (cnt_decr p) validConns in
        (p', v, ev0 ++ ev1 ++ connection_delete conn1 ++ ev)
      else if (getAliveTime conn1 d >=? to_int (_maxIdleTime p * 1000))
              && (_connectionCnt p >? _initSize p)
      then
        let '(p', v, ev) := scan_loop ds (S i) rest (cnt_decr p) validConns in
        (p', v,
         ev0 ++ ev1 ++ [Log INFO "Collect idle connection"]
             ++ connection_delete conn1 ++ ev)
      else
        let '(p', v, ev) :=
          scan_loop ds (S i) rest p (validConns ++ [conn1]) in
        (p', v, ev0 ++ ev1 ++ ev)
  end.

(** One pass, from taking the lock to [lock.unlock()]. *)
Definition scan_pass (ds : nat -> driver) (p : connection_pool)
  : connection_pool * list event :=
  let '(p1, validConns, ev) := scan_loop ds 0 (_connectionQue p) p [] in
  let p2 := set_que validConns p1 in
  (p2, ev ++ (if _connectionCnt p2 <? _initSize p2 then [ev_notify_all]
              else [])).


(** ** [connection_pool::shutdown] and the destructor *)



(** ** Construction *)

(** The pool together with what lives around it. *)
Record world : Type := World {
  pool : connection_pool;
  workers : bool;                   (* [produce] and [scanner] were started *)
  handles : list PooledConnection;  (* the handles callers hold *)
  raw : list connection             (* sessions taken out by [release()] *)
}.

(** The [for(int i=0; i<_initSize; i++)] loop, with [n] iterations left. *)
Fixpoint open_initial (n : nat) (i : nat) (ds : nat -> driver)
    (p : connection_pool) : connection_pool :=
  match n with
  | O => p
  | S n' =>
      let d := ds i in
      let c := connection_new d in
      let _connected := connect c d in        (* the result is discarded *)
      open_initial n' (S i) ds (cnt_incr (que_push (refreshsAliveTime c d) p))
  end.

(** [connection_pool::connection_pool()].  [mem] holds the indeterminate
    values of the members that no initialiser sets. *)
Definition connection_pool_ctor (e : config_env) (mem : connection_pool)
    (ds : nat -> driver) : outcome (world * list event) :=
  let p0 := set_que [] (set_cnt 0 mem) in
  match loadConfigFile e EmptyString p0 with
  | Raised x => Raised x
  | Returned (false, p1, ev) =>
      Returned
        ({| pool := p1; workers := false; handles := []; raw := [] |},
         ev ++ [Log ERROR "Failed to load configuration file!"])
  | Returned (true, p1, ev) =>
      Returned
        ({| pool := open_initial (Z.to_nat (_initSize p1)) 0 ds p1;
            workers := true; handles := []; raw := [] |},
         ev ++ [ev_thread_detach "produce"; ev_thread_detach "scanner"])
  end.

(** [connection_pool::getconnect_pool()]: the function-local static is
    initialised by the first call that completes. *)
Definition getconnect_pool (static_pool : option world) (e : config_env)
    (mem : connection_pool) (ds : nat -> driver)
  : outcome (world * list event) :=
  match static_pool with
  | Some w => Returned (w, [])
  | None => connection_pool_ctor e mem ds
  end.

(** ** The pool as a transition system

    One action is one critical section of [_queueMutex] (or one operation
    on a handle); any interleaving of the threads is a sequence of
    actions. *)

Inductive action : Type :=
| a_produce (d : driver)        (* the producer finds the queue empty *)
| a_acquire (d : driver)        (* [getconnection] finds a session *)
| a_acquire_timeout (d : driver)(* [getconnection] times out *)
| a_drop (i : nat) (d : driver) (* the handle at index [i] is destroyed *)
| a_release (i : nat)           (* [release()] on the handle at index [i] *)
| a_scan (ds : nat -> driver).  (* one pass of the scanner *)

Definition exec (w : world) (a : action) : option (world * list event) :=
  match a with
  | a_produce d =>
      match workers w, _connectionQue (pool w) with
      | true, [] =>
          let '(p, ev) := produce_body (pool w) d in
          Some (World p (workers w) (handles w) (raw w), ev)
      | _, _ => None
      end
  | a_acquire d =>
      match getconnection [] d (pool w) with
      | (Handle h, p, ev) =>
          Some (World p (workers w) (handles w ++ [h]) (raw w), ev)
      | _ => None
      end
  | a_acquire_timeout d =>
      match getconnection [(timeout, snapshot (pool w))] d (pool w) with
      | (Throws _, p, ev) => Some (World p (workers w) (handles w) (raw w), ev)
      | _ => None
      end
  | a_drop i d =>
      match handles w !! i with
      | Some h =>
          match PooledConnection_dtor (Some (pool w)) h d with
          | (Some p, ev) =>
              Some (World p (workers w) (delete i (handles w)) (raw w), ev)
          | (None, _) => None
          end
      | None => None
      end
  | a_release i =>
      match handles w !! i with
      | Some h =>
          let '(ptr, h') := PooledConnection_release h in
          Some (World (pool w) (workers w) (<[i := h']> (handles w))
                      (match ptr with Some c => c :: raw w | None => raw w end),
                [])
      | None => None
      end
  | a_scan ds =>
      if workers w
      then let '(p, ev) := scan_pass ds (pool w) in
           Some (World p (workers w) (handles w) (raw w), ev)
      else None
  end.

Fixpoint run (w : world) (acts : list action) : option world :=
  match acts with
  | [] => Some w
  | a :: acts' =>
      match exec w a with
      | Some (w', _) => run w' acts'
      | None => None
      end
  end.

(** Sessions held by live handles. *)
Fixpoint held (hs : list PooledConnection) : list connection :=
  match hs with
  | [] => []
  | Some c :: hs' => c :: held hs'
  | None :: hs' => held hs'
  end.

Definition live (w : world) : list connection := held (handles w).

(** The quantities of the pool invariant. *)
Definition idle_count (w : world) : Z := Z.of_nat (length (_connectionQue (pool w))).
Definition live_count (w : world) : Z := Z.of_nat (length (live w)).
Definition total (w : world) : Z := _connectionCnt (pool w).
Definition max_size (w : world) : Z := _maxSize (pool w).
Definition init_size (w : world) : Z := _initSize (pool w).

Definition pool_invariant (w : world) : Prop :=
  idle_count w + live_count w = total w /\ 0 <= total w <= max_size w.

(** ** What the specification calls idle seconds

    [getAliveTime] is a difference of two [clock()] readings, in clock
    ticks; [CLOCKS_PER_SEC] ticks make one second. *)
Definition idle_seconds (CLOCKS_PER_SEC : Z) (c : connection) (d : driver) : Z :=
  getAliveTime c d / CLOCKS_PER_SEC.

(** POSIX fixes [CLOCKS_PER_SEC] at one million. *)
Definition CLOCKS_PER_SEC_POSIX : Z := 1000000.

(** Actions of the runs in which no [reconnect] call raises and no caller
    detaches a handle. *)
Definition regular (a : action) : Prop :=
  match a with
  | a_acquire d => raises d = false
  | a_release _ => False
  | _ => True
  end.

(** A member update that leaves the queue and the count alone. *)
Definition keeps_queue_and_count (f : connection_pool -> connection_pool)
  : Prop :=
  forall p, _connectionQue (f p) = _connectionQue p
            /\ _connectionCnt (f p) = _connectionCnt p.

(** The sessions the constructor loop opens, by index. *)
Definition opened (ds : nat -> driver) (i : nat) : connection :=
  refreshsAliveTime (connection_new (ds i)) (ds i).

(** The scanner keeps working on a session when its probe succeeds or,
    failing that, when [reconnect] succeeds. *)
Definition usable (d : driver) (c : connection) : Prop :=
  fst (isValid c isValid_default_timeout d) = true
  \/ fst (fst (reconnect c d)) = true.

(** The invariant carried along a run: the count is the number of idle
    sessions plus the number of sessions held by handles, and it is at most
    [_maxSize], which fits an [int] so that no update of the count wraps. *)
Definition counted (w : world) : Prop :=
  idle_count w + live_count w = total w
  /\ total w <= max_size w
  /\ max_size w <= INT_MAX.

(** ** Sample inputs *)

Module Sample.
(** A manager over a table of integer settings; strings take their
    defaults. *)
Definition cm_table (loads : bool) (ints : list (string * Z)) : ConfigManager :=
  {| loadConfig := fun _ => loads;
     getString := fun _ dflt => dflt;
     getInt := fun k dflt =>
       match find (fun kv => String.eqb (fst kv) k) ints with
       | Some kv => snd kv
       | None => dflt
       end;
     getBool := fun _ dflt => dflt |}.

(** A build with SimpleIni only. *)
Definition env_ini (cm : ConfigManager) : config_env :=
  {| USE_SIMPLE_INI := true; USE_YAML_CPP := false;
     IniConfigManager := cm; YamlConfigManager := cm;
     throw_at := None; fopen_fgets := fun _ => None |}.

Definition mem0 : connection_pool :=
  ConnectionPool EmptyString 0 EmptyString EmptyString EmptyString
    0 0 0 0 [] 0 false.

(** The server answers: opens succeed, pings succeed. *)
Definition server_up (a : positive) (now : Z) : driver :=
  {| new_addr := a; uninit := 0; mysql_init := Some a;
     mysql_real_connect := fun _ => true; mysql_error := EmptyString;
     mysql_ping := fun _ => 0; clock := now; raises := false |}.

(** The server is unreachable: opens fail, pings fail. *)
Definition server_down (a : positive) (now : Z) : driver :=
  {| new_addr := a; uninit := 0; mysql_init := Some a;
     mysql_real_connect := fun _ => false;
     mysql_error := "Can't connect to MySQL server";
     mysql_ping := fun _ => 1; clock := now; raises := false |}.

Definition ds_up (i : nat) : driver := server_up (Pos.of_succ_nat i) 0.

(** The pool of the default configuration, every session lent out. *)
Definition default_pool : connection_pool :=
  set_cnt 5 (assign_all (assignments (cm_table true [])) mem0).

Definition session (a : positive) (since : Z) : connection :=
  {| addr := a; _conn := Some a; _alivetime := since |}.

(** A pool configured with [initSize = 1] and [maxSize = 2], as the
    constructor leaves it, and a run over it: a borrow, a refill by the
    producer, a borrow that meets an unreachable server, a time-out, the
    return of the first handle and a pass of the scanner. *)
Definition small_env : config_env :=
  env_ini (cm_table true [("initSize", 1); ("maxSize", 2)]).

Definition small_start : world :=
  World (open_initial 1 0 ds_up
           (assign_all (assignments (cm_table true [("initSize", 1);
                                                    ("maxSize", 2)]))
                       mem0))
        true [] [].

Definition small_run : list action :=
  [ a_acquire (server_up 5 1);
    a_produce (server_up 6 2);
    a_acquire (server_down 7 3);
    a_acquire_timeout (server_up 8 4);
    a_drop 0 (server_up 9 5);
    a_scan (fun _ => server_up 10 6) ].

(** Two idle sessions last refreshed at tick 0, a count of 2 and
    [initSize = 1], under the default [maxIdleTime] of 60. *)
Definition two_idle : connection_pool :=
  set_cnt 2 (set_que [session 1 0; session 2 0] (set_initSize 1 default_pool)).
End Sample.

(** ** Further notions used by the properties *)

(** The nine configuration members. *)
Definition same_config (p p' : connection_pool) : Prop :=
  _ip p' = _ip p /\ _port p' = _port p /\ _username p' = _username p
  /\ _password p' = _password p /\ _dbname p' = _dbname p
  /\ _initSize p' = _initSize p /\ _maxSize p' = _maxSize p
  /\ _maxIdleTime p' = _maxIdleTime p
  /\ _connectionTimeout p' = _connectionTimeout p.

(** The chain of key comparisons of the fall-back parser, applied to a
    line already split into its key and its value. *)
Definition assign_key (key value : string) (p : connection_pool)
  : connection_pool :=
  if String.eqb key "ip" then set_ip value p
  else if String.eqb key "port" then set_port (atoi value) p
  else if String.eqb key "username" then set_username value p
  else if String.eqb key "password" then set_password value p
  else if String.eqb key "dbname" then set_dbname value p
  else if String.eqb key "initSize" then set_initSize (atoi value) p
  else if String.eqb key "maxSize" then set_maxSize (atoi value) p
  else if String.eqb key "maxIdleTime" then set_maxIdleTime (atoi value) p
  else if String.eqb key "connectionTimeOut"
       then set_connectionTimeout (atoi value) p
       else p.

(** Addresses of the sessions that exist: idle, held by a handle, or in a
    caller's hands after [release()]. *)
Definition addrs (w : world) : list positive :=
  map addr (_connectionQue (pool w)) ++ map addr (live w)
    ++ map addr (raw w).

(** [operator new] does not return the address of an object that is
    alive: when the producer allocates, the address is new. *)
Definition allocates_fresh (w : world) (a : action) : Prop :=
  match a with
  | a_produce d =>
      _connectionCnt (pool w) < _maxSize (pool w) -> new_addr d ∉ addrs w
  | _ => True
  end.

Fixpoint allocator_ok (w : world) (acts : list action) : Prop :=
  match acts with
  | [] => True
  | a :: acts' =>
      allocates_fresh w a
      /\ match exec w a with
         | Some (w', _) => allocator_ok w' acts'
         | None => True
         end
  end.

Definition is_timeout (st : cv_status) : bool :=
  match st with timeout => true | no_timeout => false end.

(** ** Further sample inputs *)

Module Inputs.
(** A build with yaml-cpp only, over a file system that has the file. *)
Definition env_yaml_only : config_env :=
  {| USE_SIMPLE_INI := false; USE_YAML_CPP := true;
     IniConfigManager := Sample.cm_table true [];
     YamlConfigManager := Sample.cm_table true [];
     throw_at := None;
     fopen_fgets := fun _ => Some ["initSize=1"] |}.

(** A build with SimpleIni in which the manager raises at once, over a
    file that holds a comment and an empty buffer. *)
Definition env_fallback : config_env :=
  {| USE_SIMPLE_INI := true; USE_YAML_CPP := false;
     IniConfigManager := Sample.cm_table true [];
     YamlConfigManager := Sample.cm_table true [];
     throw_at := Some (0%nat, "bad_alloc");
     fopen_fgets := fun _ => Some ["# pool settings"; EmptyString] |}.
End Inputs.

(** Actions of the runs in which no [reconnect] call raises; callers may
    detach handles. *)
Definition no_raise (a : action) : Prop :=
  match a with
  | a_acquire d => raises d = false
  | _ => True
  end.

(** The count, with the detached sessions taken into account. *)
Definition detached_count (w : world) : Z := Z.of_nat (length (raw w)).

Definition counted_with_detached (w : world) : Prop :=
  idle_count w + live_count w + detached_count w = total w
  /\ total w <= max_size w
  /\ max_size w <= INT_MAX.

(** * Properties *)

(** Refutes a membership [H : e ∈ l] in a list built from explicit
    elements none of which can be [e]. *)
Ltac absurd_elem H :=
  repeat first
    [ apply elem_of_app in H as [H|H]
    | apply elem_of_cons in H as [H|H] ];
  first [ discriminate H | by apply elem_of_nil in H ].

(** ** Machine integers *)

Lemma to_int_id z : in_int z -> to_int z = z.
Proof.
  unfold in_int, INT_MIN, INT_MAX, to_int. intros H.
  rewrite Z.mod_small; lia.
Qed.

Lemma to_int_range z : in_int (to_int z).
Proof.
  unfold in_int, INT_MIN, INT_MAX, to_int.
  pose proof (Z.mod_pos_bound (z + 2 ^ 31) (2 ^ 32) ltac:(lia)). lia.
Qed.

Lemma to_int_succ z : to_int (to_int z + 1) = to_int (z + 1).
Proof.
  unfold to_int.
  replace ((z + 2 ^ 31) mod 2 ^ 32 - 2 ^ 31 + 1 + 2 ^ 31)
    with ((z + 2 ^ 31) mod 2 ^ 32 + 1) by lia.
  rewrite Zplus_mod_idemp_l. f_equal. f_equal. lia.
Qed.

(** ** The liveness probe *)

Lemma isValid_true_iff c t d :
  fst (isValid c t d) = true <-> exists h, _conn c = Some h /\ mysql_ping d h = 0.
Proof.
  unfold isValid. destruct (_conn c) as [h|]; simpl.
  - destruct (Z.eqb_spec (mysql_ping d h) 0); split.
    + intros _. by exists h.
    + done.
    + done.
    + intros (h' & [= <-] & Hp). done.
  - split; [done|]. by intros (h & ? & _).
Qed.

(** C10: [connection::isValid] never reads its [timeout] argument.  For
    every connection, every answer of the driver and any two timeouts, the
    two calls return the same result and log the same lines, the same as
    with the default of 30; the result is decided by [_conn] and
    [mysql_ping] alone. *)
Theorem isValid_timeout_irrelevant (c : connection) (d : driver) (t1 t2 : Z) :
  isValid c t1 d = isValid c t2 d
  /\ isValid c t1 d = isValid c isValid_default_timeout d
  /\ isValid_default_timeout = 30
  /\ (fst (isValid c t1 d) = true
      <-> exists h, _conn c = Some h /\ mysql_ping d h = 0).
Proof. repeat split; apply isValid_true_iff. Qed.

(** ** Borrowing a session whose probe fails *)

(** Whatever [reconnect] answers, the popped session is handed out: the
    count stays, nothing is destroyed, the wait loop is not entered
    again. *)
Lemma getconnection_take_invalid conn p d :
  fst (isValid conn isValid_default_timeout d) = false ->
  raises d = false ->
  let '(h, p', ev) := getconnection_take conn p d in
  h = Some (refreshsAliveTime (snd (fst (reconnect conn d))) d)
  /\ p' = p
  /\ forall c, ev_delete c ∉ ev.
Proof.
  intros Hv Hr. unfold getconnection_take.
  destruct (isValid conn isValid_default_timeout d) as [valid ev0] eqn:E.
  simpl in Hv. subst valid. rewrite Hr.
  destruct (reconnect conn d) as [[ok conn1] ev1] eqn:Er. simpl.
  repeat split. intros c Hin.
  unfold isValid in E. unfold reconnect in Er.
  destruct (_conn conn); destruct (mysql_init d);
    try destruct (mysql_real_connect d _);
    simplify_eq; absurd_elem Hin.
Qed.

(** C2: on the pool of the default configuration with one idle session,
    when the server is unreachable (the probe fails and [reconnect]
    returns false), [getconnection] hands that very session to the
    caller: the count is still 1, no session is destroyed, and the
    returned session fails [isValid] at the moment of return. *)
Theorem getconnection_returns_failed_reconnect :
  let p := set_cnt 1 (set_que [Sample.session 1 0] Sample.default_pool) in
  let d := Sample.server_down 9 100 in
  let c' := {| addr := 1; _conn := Some 9%positive; _alivetime := 100 |} in
  fst (fst (reconnect (Sample.session 1 0) d)) = false
  /\ getconnection [] d p =
       (Handle (Some c'), set_que [] p,
        [Log WARN "Obtained invalid connection!";
         ev_mysql_close 1%positive;
         Log ERROR "MySQL reconnect failed: Can't connect to MySQL server";
         ev_notify_all])
  /\ _connectionCnt (set_que [] p) = 1
  /\ fst (isValid c' isValid_default_timeout d) = false.
Proof. repeat split. Qed.

(** ** Borrowing from an empty queue *)

Lemma resume_snapshot p : resume (snapshot p) p = p.
Proof. by destruct p. Qed.





(** ** Borrowing and the shutdown flag *)


Lemma getconnection_take_set_shutdown conn p d b :
  getconnection_take conn (set_shutdown b p) d
  = let '(h, p', ev) := getconnection_take conn p d in
    (h, set_shutdown b p', ev).
Proof.
  unfold getconnection_take.
  destruct (isValid conn isValid_default_timeout d) as [[] ev0];
    [reflexivity|].
  destruct (raises d); [reflexivity|].
  by destruct (reconnect conn d) as [[ok conn1] ev1].
Qed.









(** ** Construction *)

Lemma assign_all_keeps fs :
  Forall keeps_queue_and_count fs -> keeps_queue_and_count (assign_all fs).
Proof.
  unfold assign_all. induction 1 as [|f fs Hf _ IH]; intros p; simpl.
  - done.
  - destruct (IH (f p)) as [-> ->]. apply Hf.
Qed.

Lemma assignments_keep cm : Forall keeps_queue_and_count (assignments cm).
Proof. unfold assignments. repeat constructor. Qed.

Lemma parse_line_keeps str : keeps_queue_and_count (fun p => parse_line p str).
Proof.
  intros p. unfold parse_line.
  destruct (index 0 "=" str); [|done].
  repeat (match goal with |- context [if ?b then _ else _] => destruct b end;
          [done|]).
  done.
Qed.

Lemma parse_lines_keep lines :
  keeps_queue_and_count (fun p => fold_left parse_line lines p).
Proof.
  induction lines as [|l lines IH]; intros p; simpl; [done|].
  destruct (IH (parse_line p l)) as [-> ->]. apply parse_line_keeps.
Qed.

Lemma loadConfigFile_catch_keeps e f what p b p1 ev :
  loadConfigFile_catch e f what p = (b, p1, ev) ->
  _connectionQue p1 = _connectionQue p /\ _connectionCnt p1 = _connectionCnt p.
Proof.
  unfold loadConfigFile_catch. destruct (fopen_fgets e f); intros [= <- <- <-].
  - apply parse_lines_keep.
  - done.
Qed.

Lemma loadConfigFile_keeps e filename p b p1 ev :
  loadConfigFile e filename p = Returned (b, p1, ev) ->
  _connectionQue p1 = _connectionQue p /\ _connectionCnt p1 = _connectionCnt p.
Proof.
  unfold loadConfigFile.
  destruct (createConfigManager e _) as [cm|]; [|done].
  destruct (throw_at e) as [[[|k] what]|].
  - intros [= H]. by apply loadConfigFile_catch_keeps in H.
  - destruct (loadConfig cm _).
    + intros [= H]. apply loadConfigFile_catch_keeps in H as [-> ->].
      apply assign_all_keeps, Forall_take, assignments_keep.
    + by intros [= <- <- <-].
  - destruct (loadConfig cm _); intros [= <- <- <-]; done.
Qed.

Lemma createConfigManager_raises e f x :
  createConfigManager e f = Raised x -> exists what, x = runtime_error_ptr what.
Proof.
  unfold createConfigManager.
  repeat match goal with
         | |- context [match ?o with Some _ => _ | None => _ end] => destruct o
         | |- context [if ?b then _ else _] => destruct b
         end; intros [= <-]; eauto.
Qed.

Lemma loadConfigFile_raises e filename p x :
  loadConfigFile e filename p = Raised x ->
  exists what, x = runtime_error_ptr what.
Proof.
  unfold loadConfigFile.
  destruct (createConfigManager e _) as [cm|y] eqn:E.
  - destruct (throw_at e) as [[[|k] what]|]; try destruct (loadConfig cm _);
      done.
  - intros [= <-]. by apply createConfigManager_raises in E.
Qed.

Lemma open_initial_spec ds n : forall i p c,
  _connectionCnt p = to_int c ->
  _connectionQue (open_initial n i ds p)
  = _connectionQue p ++ map (opened ds) (seq i n)
  /\ _connectionCnt (open_initial n i ds p) = to_int (c + Z.of_nat n).
Proof.
  induction n as [|n IH]; intros i p c Hc; simpl.
  - rewrite app_nil_r, Z.add_0_r. done.
  - destruct (IH (S i) (cnt_incr (que_push (opened ds i) p)) (c + 1)) as [Hq Hn].
    { simpl. rewrite Hc. apply to_int_succ. }
    unfold opened in *. rewrite Hq, Hn. simpl. rewrite <- app_assoc. simpl.
    split; [done|]. f_equal. lia.
Qed.

(** C5 (as the code has it): what [getconnect_pool] does on its first
    call is decided by [loadConfigFile].  When it returns true (through a
    config manager or through the fall-back key=value parser) the
    constructor opens max(initSize, 0) sessions one after the other and
    enqueues every one of them, whether or not its [connect] succeeded,
    the count is max(initSize, 0) (as an [int]) and both threads are
    started.  When it returns false the constructor logs an error and
    returns normally: the pool exists with an empty queue, a count of 0
    and no threads.  Only the pointer that [createConfigManager] throws
    for a missing backend leaves [getconnect_pool]. *)
Theorem connection_pool_ctor_outcomes (e : config_env) (mem : connection_pool)
    (ds : nat -> driver) :
  match loadConfigFile e EmptyString (set_que [] (set_cnt 0 mem)),
        getconnect_pool None e mem ds with
  | Returned (true, p1, _), Returned (w, ev) =>
      _connectionQue (pool w)
      = map (opened ds) (seq 0 (Z.to_nat (_initSize p1)))
      /\ total w = to_int (Z.max 0 (_initSize p1))
      /\ workers w = true
      /\ handles w = []
      /\ (ev_thread_detach "produce" ∈ ev)
      /\ (ev_thread_detach "scanner" ∈ ev)
  | Returned (false, p1, _), Returned (w, ev) =>
      pool w = p1
      /\ _connectionQue (pool w) = []
      /\ total w = 0
      /\ workers w = false
      /\ (Log ERROR "Failed to load configuration file!" ∈ ev)
  | Raised x, Raised y => x = y /\ exists what, x = runtime_error_ptr what
  | _, _ => False
  end.
Proof.
  unfold getconnect_pool, connection_pool_ctor.
  destruct (loadConfigFile e EmptyString (set_que [] (set_cnt 0 mem)))
    as [[[[] p1] ev]|x] eqn:E.
  - apply loadConfigFile_keeps in E as [Hq Hc]. simpl in Hq, Hc.
    destruct (open_initial_spec ds (Z.to_nat (_initSize p1)) 0%nat p1 0 Hc)
      as [Hq' Hc'].
    unfold total. simpl. rewrite Hq', Hc', Hq. simpl.
    repeat split.
    + f_equal. lia.
    + rewrite elem_of_app, !elem_of_cons. tauto.
    + rewrite elem_of_app, !elem_of_cons. tauto.
  - apply loadConfigFile_keeps in E as [Hq Hc]. simpl in Hq, Hc.
    unfold total. simpl. repeat split; try done.
    rewrite elem_of_app, !elem_of_cons. tauto.
  - split; [done|]. by apply loadConfigFile_raises in E.
Qed.

(** C5 fails as stated.  When the INI file cannot be loaded,
    [getconnect_pool] returns a pool with no session and no thread instead
    of failing; and when the configuration loads but the server is
    unreachable, the constructor still returns, with the two sessions whose
    [connect] failed in the queue and a count of 2. *)
Lemma getconnect_pool_survives_failures :
  getconnect_pool None (Sample.env_ini (Sample.cm_table false []))
    Sample.mem0 Sample.ds_up
  = Returned
      ({| pool := Sample.mem0; workers := false; handles := []; raw := [] |},
       [Log ERROR "Failed to load config file: db_config.ini";
        Log ERROR "Failed to load configuration file!"])
  /\ (forall i, connect (connection_new (Sample.server_down (Pos.of_succ_nat i) 7))
                  (Sample.server_down (Pos.of_succ_nat i) 7) = false)
  /\ match getconnect_pool None
             (Sample.env_ini (Sample.cm_table true [("initSize", 2)]))
             Sample.mem0 (fun i => Sample.server_down (Pos.of_succ_nat i) 7)
     with
     | Returned (w, _) =>
         _connectionQue (pool w)
         = [ {| addr := 1; _conn := Some 1%positive; _alivetime := 7 |};
             {| addr := 2; _conn := Some 2%positive; _alivetime := 7 |} ]
         /\ total w = 2 /\ workers w = true
     | Raised _ => False
     end.
Proof. repeat split. Qed.

(** ** The producer *)

(** C6 (as the code has it): in an iteration of the producer that finds
    the queue empty and the count below [_maxSize], the new session is
    enqueued and counted whatever [connect] returned; its result is
    discarded and nothing is logged. *)
Theorem produce_body_counts_every_open (p : connection_pool) (d : driver) :
  _connectionQue p = [] ->
  _connectionCnt p < _maxSize p ->
  in_int (_connectionCnt p) ->
  in_int (_maxSize p) ->
  let c := refreshsAliveTime (connection_new d) d in
  produce_body p d = (cnt_incr (que_push c p), [ev_notify_all])
  /\ _connectionQue (fst (produce_body p d)) = [c]
  /\ _connectionCnt (fst (produce_body p d)) = _connectionCnt p + 1
  /\ forall lvl msg, Log lvl msg ∉ snd (produce_body p d).
Proof.
  intros Hq Hlt Hc Hm c. unfold produce_body.
  destruct (Z.ltb_spec (_connectionCnt p) (_maxSize p)); [|lia].
  simpl. rewrite Hq. repeat split.
  - apply to_int_id. unfold in_int, INT_MIN, INT_MAX in *. lia.
  - intros lvl msg Hin. absurd_elem Hin.
Qed.

Lemma produce_body_counts_every_open_witness :
  let p := set_cnt 1 Sample.default_pool in
  let d := Sample.server_down 7 50 in
  connect (connection_new d) d = false
  /\ _connectionQue (fst (produce_body p d))
     = [ {| addr := 7; _conn := Some 7%positive; _alivetime := 50 |} ]
  /\ _connectionCnt (fst (produce_body p d)) = 2.
Proof.
  cbv zeta. split; [reflexivity|].
  pose proof (produce_body_counts_every_open
                (set_cnt 1 Sample.default_pool) (Sample.server_down 7 50)
                eq_refl eq_refl) as H.
  destruct H as (_ & Hq & Hc & _).
  - vm_compute. split; discriminate.
  - vm_compute. split; discriminate.
  - split; [exact Hq | exact Hc].
Defined.

(** C6 fails as stated: with the server unreachable [connect] returns
    false, and the producer still pushes the session and raises the count
    from 1 to 2, without a log line. *)
Lemma produce_body_counts_failed_open :
  let p := set_cnt 1 Sample.default_pool in
  let d := Sample.server_down 7 50 in
  _connectionQue p = []
  /\ _connectionCnt p < _maxSize p
  /\ connect (connection_new d) d = false
  /\ produce_body p d
     = (set_cnt 2
          (set_que [ {| addr := 7; _conn := Some 7%positive;
                        _alivetime := 50 |} ] p),
        [ev_notify_all]).
Proof. repeat split. Qed.

(** ** Shutdown *)




Lemma connection_delete_deletes c : ev_delete c ∈ connection_delete c.
Proof.
  unfold connection_delete. destruct (_conn c); rewrite !elem_of_cons; tauto.
Qed.

Lemma connection_delete_no_notify c : ev_notify_all ∉ connection_delete c.
Proof.
  unfold connection_delete. intros H. destruct (_conn c); absurd_elem H.
Qed.




(** ** Detaching a handle *)

Lemma delete_insert_same {A} (l : list A) i x : delete i (<[i := x]> l) = delete i l.
Proof.
  revert i. induction l as [|a l IH]; intros [|i]; simpl; try done.
  f_equal. apply IH.
Qed.

(** C9 (as the code has it): [release()] on a handle that holds a session
    empties the handle and hands the session to the caller.  The session
    is not destroyed and not pushed back, the pool (queue and count) is
    untouched, and when the emptied handle is destroyed later the return
    lambda does not run. *)
Theorem release_detaches_without_destroying (w : world) (i : nat)
    (c : connection) (d : driver) :
  handles w !! i = Some (Some c) ->
  let w' := World (pool w) (workers w) (<[i := None]> (handles w))
                  (c :: raw w) in
  PooledConnection_release (Some c) = (Some c, None)
  /\ exec w (a_release i) = Some (w', [])
  /\ pool w' = pool w
  /\ (c ∈ raw w')
  /\ exec w' (a_drop i d)
     = Some (World (pool w) (workers w) (delete i (handles w)) (c :: raw w),
             []).
Proof.
  intros Hi w'. subst w'. split; [reflexivity|]. split.
  { unfold exec, PooledConnection in *. by rewrite Hi. }
  split; [reflexivity|]. split.
  { simpl. apply elem_of_cons. by left. }
  unfold exec, PooledConnection in *. cbn [handles pool workers raw].
  rewrite list_lookup_insert_eq by by eapply lookup_lt_Some.
  cbn. by rewrite delete_insert_same.
Qed.

Lemma release_detaches_without_destroying_witness :
  let w := World Sample.default_pool true [Some (Sample.session 1 0)] [] in
  exec w (a_release 0)
  = Some (World Sample.default_pool true [None] [Sample.session 1 0], []).
Proof.
  cbv zeta.
  exact (proj1 (proj2 (release_detaches_without_destroying
           (World Sample.default_pool true [Some (Sample.session 1 0)] [])
           0%nat (Sample.session 1 0) (Sample.server_up 1 0) eq_refl))).
Defined.

(** C9 fails as stated: [release()] on the only handle produces no event,
    so the session is neither closed nor destroyed; it is in the caller's
    hands, and the count still includes it. *)
Lemma release_does_not_destroy :
  let w := World Sample.default_pool true [Some (Sample.session 1 0)] [] in
  match exec w (a_release 0) with
  | Some (w', ev) =>
      (ev_delete (Sample.session 1 0) ∉ ev)
      /\ ev = []
      /\ raw w' = [Sample.session 1 0]
      /\ total w' = total w
  | None => False
  end.
Proof.
  cbv zeta. cbn. repeat split. intros H. absurd_elem H.
Qed.

(** ** The counting invariant *)

Lemma counted_pool_invariant w : counted w -> pool_invariant w.
Proof.
  unfold counted, pool_invariant, idle_count, live_count.
  intros (H1 & H2 & _). split; [done|]. lia.
Qed.

Lemma to_int_small z : 0 <= z <= INT_MAX -> to_int z = z.
Proof. intros H. apply to_int_id. unfold in_int, INT_MIN, INT_MAX in *. lia. Qed.

Lemma produce_body_max p d : _maxSize (fst (produce_body p d)) = _maxSize p.
Proof. unfold produce_body. by destruct (_ <? _). Qed.

Lemma produce_body_counted p d (L : Z) :
  Z.of_nat (length (_connectionQue p)) + L = _connectionCnt p ->
  0 <= L ->
  _connectionCnt p <= _maxSize p ->
  _maxSize p <= INT_MAX ->
  Z.of_nat (length (_connectionQue (fst (produce_body p d)))) + L
  = _connectionCnt (fst (produce_body p d))
  /\ _connectionCnt (fst (produce_body p d)) <= _maxSize p.
Proof.
  intros Hsum HL Hle Hmax. unfold produce_body.
  destruct (Z.ltb_spec (_connectionCnt p) (_maxSize p)); simpl; [|done].
  rewrite length_app. simpl. rewrite to_int_small by lia. lia.
Qed.

Lemma getconnection_take_regular conn p d :
  raises d = false ->
  snd (fst (getconnection_take conn p d)) = p
  /\ exists c, fst (fst (getconnection_take conn p d)) = Some c.
Proof.
  intros Hr. unfold getconnection_take.
  destruct (isValid conn isValid_default_timeout d) as [[] ev0]; simpl;
    [eauto|].
  rewrite Hr. destruct (reconnect conn d) as [[ok conn1] ev1]. simpl. eauto.
Qed.

Lemma held_app_some (hs : list PooledConnection) (c : connection) :
  held (hs ++ [Some c]) = held hs ++ [c].
Proof. induction hs as [|[a|] hs IH]; simpl; by rewrite ?IH. Qed.

Lemma held_delete (hs : list PooledConnection) (i : nat)
    (h : PooledConnection) :
  hs !! i = Some h ->
  Z.of_nat (length (held (delete i hs)))
  = Z.of_nat (length (held hs))
    - match h with Some _ => 1 | None => 0 end.
Proof.
  revert i. induction hs as [|a hs IH]; intros [|i]; simpl; try done.
  - intros [= ->]. destruct h; simpl; lia.
  - intros Hi. specialize (IH _ Hi). destruct a; simpl in *; lia.
Qed.

Lemma held_lookup_pos (hs : list PooledConnection) (i : nat)
    (c : connection) :
  hs !! i = Some (Some c) -> 1 <= Z.of_nat (length (held hs)).
Proof.
  revert i. induction hs as [|a hs IH]; intros [|i]; simpl; try done.
  - intros [= ->]. simpl. lia.
  - intros Hi. specialize (IH _ Hi). destruct a; simpl in *; lia.
Qed.

Lemma deleter_alive pool c d :
  exists p' ev,
    deleter (Some pool) (Some c) d = (Some p', ev)
    /\ _maxSize p' = _maxSize pool
    /\ ((_connectionQue p' = _connectionQue pool ++ [refreshsAliveTime c d]
         /\ _connectionCnt p' = _connectionCnt pool)
        \/ (_connectionQue p' = _connectionQue pool
            /\ _connectionCnt p' = to_int (_connectionCnt pool - 1))).
Proof.
  unfold deleter.
  destruct (isValid c isValid_default_timeout d) as [[] ev0];
    eexists _, _; (split; [reflexivity|]); simpl; auto.
Qed.

(** The loop of the scanner: sessions that are neither kept nor still
    to be examined have been taken off the count. *)
Lemma scan_loop_counted ds : forall que i p v (L : Z),
  Z.of_nat (length que) + Z.of_nat (length v) + L = _connectionCnt p ->
  0 <= L ->
  _connectionCnt p <= INT_MAX ->
  let '(p', v', _) := scan_loop ds i que p v in
  Z.of_nat (length v') + L = _connectionCnt p'
  /\ _connectionCnt p' <= _connectionCnt p
  /\ _maxSize p' = _maxSize p
  /\ _initSize p' = _initSize p.
Proof.
  induction que as [|conn rest IH]; intros i p v L Hsum HL Hmax.
  - simpl in *. lia.
  - cbn [scan_loop].
    pose proof (IH (S i) (cnt_decr p) v L) as IHd.
    pose proof (fun c1 => IH (S i) p (v ++ [c1]) L) as IHk.
    assert (Hdec : _connectionCnt (cnt_decr p) = _connectionCnt p - 1).
    { simpl. apply to_int_small. simpl in Hsum. lia. }
    destruct (isValid conn isValid_default_timeout (ds i)) as [[] ev0];
      [| destruct (reconnect conn (ds i)) as [[[] c1] ev1] ];
      cbn [negb]; try destruct (_ && _);
      match goal with
      | |- context [scan_loop ds (S i) rest (cnt_decr p) v] =>
          destruct (scan_loop ds (S i) rest (cnt_decr p) v) as [[p' v'] ev];
          rewrite Hdec in IHd; simpl in Hsum;
          destruct IHd as (? & ? & ? & ?); [lia..|];
          simpl in *; repeat split; try lia; try done
      | |- context [scan_loop ds (S i) rest p (v ++ [?c])] =>
          specialize (IHk c);
          destruct (scan_loop ds (S i) rest p (v ++ [c])) as [[p' v'] ev];
          rewrite length_app in IHk; simpl in IHk, Hsum;
          destruct IHk as (? & ? & ? & ?); [lia..|]; done
      end.
Qed.

Lemma scan_pass_counted ds p (L : Z) :
  Z.of_nat (length (_connectionQue p)) + L = _connectionCnt p ->
  0 <= L ->
  _connectionCnt p <= _maxSize p ->
  _maxSize p <= INT_MAX ->
  let p' := fst (scan_pass ds p) in
  Z.of_nat (length (_connectionQue p')) + L = _connectionCnt p'
  /\ _connectionCnt p' <= _maxSize p'
  /\ _maxSize p' = _maxSize p.
Proof.
  intros Hsum HL Hle Hmax. unfold scan_pass.
  pose proof (scan_loop_counted ds (_connectionQue p) 0%nat p [] L) as H.
  destruct (scan_loop ds 0 (_connectionQue p) p []) as [[p1 v] ev].
  simpl in *. destruct H as (? & ? & ? & ?); [lia..|]. lia.
Qed.

Lemma exec_counted w a w' ev :
  counted w -> regular a -> exec w a = Some (w', ev) ->
  counted w' /\ max_size w' = max_size w.
Proof.
  unfold counted, idle_count, live_count, live, total, max_size.
  intros (Hsum & Hle & Hmax) Hreg.
  assert (HL : 0 <= Z.of_nat (length (held (handles w)))) by lia.
  destruct a as [d|d|d|i d|i|ds]; simpl.
  - (* producer *)
    pose proof (produce_body_counted (pool w) d _ Hsum HL Hle Hmax) as [H1 H2].
    pose proof (produce_body_max (pool w) d) as H3.
    destruct (workers w); [|done].
    destruct (_connectionQue (pool w)) eqn:Hq; [|done].
    destruct (produce_body (pool w) d) as [p ev']. intros [= <- <-].
    simpl in *. rewrite H3. repeat split; try lia.
  - (* getconnection finds a session *)
    destruct (_connectionQue (pool w)) as [|conn rest] eqn:Hq; [done|].
    simpl in Hreg.
    pose proof (getconnection_take_regular conn (set_que rest (pool w)) d Hreg)
      as [Hp [c Hc]].
    destruct (getconnection_take conn (set_que rest (pool w)) d)
      as [[h p] ev'].
    simpl in Hp, Hc. subst h p. intros [= <- <-]. simpl.
    rewrite held_app_some, length_app. simpl in *. repeat split; try lia.
  - (* getconnection times out *)
    destruct (_connectionQue (pool w)) as [|conn rest] eqn:Hq.
    + rewrite resume_snapshot. intros [= <- <-]. simpl. rewrite Hq. done.
    + by destruct (getconnection_take conn (set_que rest (pool w)) d)
        as [[h p] ev'].
  - (* a handle is destroyed *)
    destruct (handles w !! i) as [[c|]|] eqn:Hi; [| |done].
    + unfold PooledConnection_dtor.
      destruct (deleter_alive (pool w) c d) as (p' & ev' & -> & Hm & Hcase).
      intros [= <- <-]. simpl.
      pose proof (held_delete _ _ _ Hi) as Hd.
      pose proof (held_lookup_pos _ _ _ Hi) as Hpos.
      destruct Hcase as [[-> ->]|[-> ->]]; rewrite Hm.
      * rewrite length_app. simpl. repeat split; try lia.
      * rewrite to_int_small by lia. repeat split; try lia.
    + simpl. intros [= <- <-]. simpl.
      pose proof (held_delete _ _ _ Hi) as Hd. repeat split; try lia.
  - done.
  - (* one pass of the scanner *)
    destruct (workers w); [|done].
    pose proof (scan_pass_counted ds (pool w) _ Hsum HL Hle Hmax)
      as (H1 & H2 & H3).
    destruct (scan_pass ds (pool w)) as [p ev']. intros [= <- <-].
    simpl in *. rewrite H3 in *. repeat split; try lia.
Qed.

Lemma run_counted acts : forall w w',
  counted w -> Forall regular acts -> run w acts = Some w' ->
  counted w' /\ max_size w' = max_size w.
Proof.
  induction acts as [|a acts IH]; intros w w' Hc Hreg; simpl.
  - by intros [= <-].
  - apply Forall_cons in Hreg as [Ha Hacts].
    destruct (exec w a) as [[w1 ev]|] eqn:E; [|done].
    apply exec_counted in E as [Hc1 Hm1]; [|done..].
    intros Hrun. apply IH in Hrun as [? ?]; [|done..].
    split; [done|congruence].
Qed.

Lemma open_initial_config n : forall i ds p,
  _maxSize (open_initial n i ds p) = _maxSize p
  /\ _initSize (open_initial n i ds p) = _initSize p.
Proof.
  induction n as [|n IH]; intros i ds p; simpl; [done|].
  exact (IH (S i) ds (cnt_incr (que_push (opened ds i) p))).
Qed.

Lemma connection_pool_ctor_counted e mem ds w ev :
  connection_pool_ctor e mem ds = Returned (w, ev) ->
  workers w = true ->
  0 <= max_size w <= INT_MAX ->
  init_size w <= max_size w ->
  counted w.
Proof.
  unfold connection_pool_ctor.
  destruct (loadConfigFile e EmptyString (set_que [] (set_cnt 0 mem)))
    as [[[[] p1] ev1]|x] eqn:E; [| |done].
  - intros [= <- <-] _. unfold max_size, init_size. simpl.
    apply loadConfigFile_keeps in E as [Hq Hc]. simpl in Hq, Hc.
    destruct (open_initial_spec ds (Z.to_nat (_initSize p1)) 0%nat p1 0 Hc)
      as [Hq' Hc'].
    destruct (open_initial_config (Z.to_nat (_initSize p1)) 0%nat ds p1)
      as [Hm Hi].
    rewrite Hm, Hi. intros Hmax Hinit.
    unfold counted, idle_count, live_count, total, max_size, live. simpl.
    rewrite Hq', Hc', Hq, Hm. simpl. rewrite length_map, length_seq.
    rewrite to_int_small by lia. lia.
  - by intros [= <- <-].
Qed.

(** C1 (as the code has it): take a pool whose configuration loaded and
    has [0 <= maxSize] (an [int]) and [initSize <= maxSize], and any
    sequence of
    critical sections of the producer, of acquirers, of handle destructors
    and of the scanner, in any order and number, in which no [reconnect]
    call of [getconnection] raises and no handle is detached by
    [release()].  In the state it reaches, the number of idle sessions plus
    the number of sessions held by handles is the count, and the count is
    between 0 and [maxSize]; and a step of the producer from there leaves
    the count at most [maxSize]. *)
Theorem pool_invariant_reachable (e : config_env) (mem : connection_pool)
    (ds : nat -> driver) (w0 : world) (ev0 : list event)
    (acts : list action) (w : world) :
  getconnect_pool None e mem ds = Returned (w0, ev0) ->
  workers w0 = true ->
  0 <= max_size w0 <= INT_MAX ->
  init_size w0 <= max_size w0 ->
  Forall regular acts ->
  run w0 acts = Some w ->
  pool_invariant w
  /\ max_size w = max_size w0
  /\ forall d w' ev, exec w (a_produce d) = Some (w', ev) ->
                     total w' <= max_size w'.
Proof.
  intros Hctor Hw Hmax Hinit Hreg Hrun. simpl in Hctor.
  pose proof (connection_pool_ctor_counted _ _ _ _ _ Hctor Hw Hmax Hinit) as Hc0.
  destruct (run_counted _ _ _ Hc0 Hreg Hrun) as [Hc Hm].
  split; [by apply counted_pool_invariant|]. split; [done|].
  intros d w' ev Hex. apply exec_counted in Hex as [Hc' _]; [|done..].
  apply Hc'.
Qed.

Lemma pool_invariant_reachable_witness :
  exists w, run Sample.small_start Sample.small_run = Some w
            /\ pool_invariant w /\ total w = 2.
Proof.
  eexists. split; [vm_compute; reflexivity|].
  split; [|reflexivity].
  eapply (pool_invariant_reachable Sample.small_env Sample.mem0 Sample.ds_up
            Sample.small_start _ Sample.small_run _).
  - reflexivity.
  - reflexivity.
  - vm_compute. split; discriminate.
  - vm_compute. discriminate.
  - repeat constructor.
  - vm_compute. reflexivity.
Defined.

(** C1 fails as stated: with [initSize = 3] and [maxSize = 2] in the
    configuration the constructor opens three sessions, and the pool starts
    with a count of 3 above its maximum of 2. *)
Lemma pool_invariant_fails_init_above_max :
  match getconnect_pool None
          (Sample.env_ini (Sample.cm_table true [("initSize", 3);
                                                 ("maxSize", 2)]))
          Sample.mem0 Sample.ds_up with
  | Returned (w, _) =>
      workers w = true /\ idle_count w = 3 /\ total w = 3 /\ max_size w = 2
      /\ ~ pool_invariant w
  | Raised _ => False
  end.
Proof.
  vm_compute. repeat split. intros (_ & _ & H). by apply H.
Qed.

(** The two other ways out of the invariant, which regular runs leave
    aside.  After [release()] on the only handle no handle holds a session
    and the count is unchanged; after a [reconnect] call that raises, the
    count is decremented although the session is handed out. *)
Lemma pool_invariant_lost_by_release :
  match run Sample.small_start [a_acquire (Sample.server_up 5 1); a_release 0]
  with
  | Some w => idle_count w = 0 /\ live_count w = 0 /\ total w = 1
  | None => False
  end.
Proof. vm_compute. repeat split. Qed.

Lemma pool_invariant_lost_by_raise :
  let d := {| new_addr := 5; uninit := 0; mysql_init := Some 5%positive;
              mysql_real_connect := fun _ => false;
              mysql_error := EmptyString;
              mysql_ping := fun _ => 1; clock := 1; raises := true |} in
  match run Sample.small_start [a_acquire d] with
  | Some w => idle_count w = 0 /\ live_count w = 1 /\ total w = 0
  | None => False
  end.
Proof. vm_compute. repeat split. Qed.

(** ** The scanner *)

Lemma reconnect_addr c d : addr (snd (fst (reconnect c d))) = addr c.
Proof.
  unfold reconnect. destruct (mysql_init d); [|done].
  by destruct (mysql_real_connect d _).
Qed.

(** The sessions the loop keeps are appended to the local queue in the
    order in which they were popped. *)
Lemma scan_loop_order ds : forall que i p v,
  exists kept,
    snd (fst (scan_loop ds i que p v)) = v ++ kept
    /\ map addr kept `sublist_of` map addr que.
Proof.
  induction que as [|conn rest IH]; intros i p v.
  - exists []. simpl. by rewrite app_nil_r.
  - cbn [scan_loop].
    pose proof (IH (S i) (cnt_decr p) v) as (k1 & Hk1 & Hs1).
    pose proof (reconnect_addr conn (ds i)) as Haddr.
    destruct (isValid conn isValid_default_timeout (ds i)) as [[] ev0];
      [| destruct (reconnect conn (ds i)) as [[[] c1] ev1] ];
      cbn [negb]; try destruct (_ && _);
      match goal with
      | |- context [scan_loop ds (S i) rest (cnt_decr p) v] =>
          destruct (scan_loop ds (S i) rest (cnt_decr p) v) as [[p' v'] ev];
          exists k1; split; [exact Hk1 | by apply sublist_cons]
      | |- context [scan_loop ds (S i) rest p (v ++ [?c])] =>
          pose proof (IH (S i) p (v ++ [c])) as (k2 & Hk2 & Hs2);
          destruct (scan_loop ds (S i) rest p (v ++ [c])) as [[p' v'] ev];
          exists (c :: k2); split;
          [ simpl in Hk2 |- *; by rewrite Hk2, <- app_assoc
          | simpl in *; rewrite ?Haddr; by apply sublist_skip ]
      end.
Qed.

(** After a pass the idle queue holds the sessions that were kept, in
    their original relative order. *)
Lemma scan_pass_order ds p :
  map addr (_connectionQue (fst (scan_pass ds p)))
    `sublist_of` map addr (_connectionQue p).
Proof.
  unfold scan_pass.
  destruct (scan_loop_order ds (_connectionQue p) 0%nat p []) as (k & Hk & Hs).
  destruct (scan_loop ds 0 (_connectionQue p) p []) as [[p1 v] ev].
  simpl in *. by subst v.
Qed.


(** C7: on a POSIX system, where [CLOCKS_PER_SEC] is one million, with the
    default [maxIdleTime] of 60 seconds, [initSize = 1], a count of 2 and
    two healthy idle sessions whose alive time reads 60000 clock ticks
    (six hundredths of a second), one pass of the scanner destroys the
    first session and takes the count to 1.  The session was idle for far
    less than [maxIdleTime] seconds: the threshold the code compares with
    is [_maxIdleTime * 1000] clock ticks. *)
Theorem scan_pass_trims_before_max_idle_time :
  let p := Sample.two_idle in
  let d := Sample.server_up 9 60000 in
  let c := Sample.session 1 0 in
  _maxIdleTime p = 60
  /\ fst (isValid c isValid_default_timeout d) = true
  /\ getAliveTime c d = 60000
  /\ getAliveTime c d < _maxIdleTime p * CLOCKS_PER_SEC_POSIX
  /\ idle_seconds CLOCKS_PER_SEC_POSIX c d = 0
  /\ scan_pass (fun _ => d) p
     = (set_cnt 1 (set_que [Sample.session 2 0] p),
        [Log INFO "Collect idle connection"; ev_mysql_close 1%positive;
         ev_delete c]).
Proof. vm_compute. repeat split. Qed.

(** * Further properties of the code *)

(** ** Reconnecting *)

(** X1: [reconnect] returns true exactly when [mysql_init] gave a handle
    on which [mysql_real_connect] succeeded.  Whatever it returns, the
    session ends up holding what [mysql_init] returned (nothing, or a
    handle that may not be connected), keeps its identity and its alive
    time, and a handle it held before is closed first; when [mysql_init]
    failed, every later probe of the session fails. *)
Theorem reconnect_outcome (c : connection) (d : driver) :
  (fst (fst (reconnect c d)) = true
   <-> exists h, mysql_init d = Some h /\ mysql_real_connect d (Some h) = true)
  /\ _conn (snd (fst (reconnect c d))) = mysql_init d
  /\ addr (snd (fst (reconnect c d))) = addr c
  /\ _alivetime (snd (fst (reconnect c d))) = _alivetime c
  /\ (forall h, _conn c = Some h ->
                head (snd (reconnect c d)) = Some (ev_mysql_close h))
  /\ (_conn c = None -> forall h, ev_mysql_close h ∉ snd (reconnect c d))
  /\ (mysql_init d = None ->
      forall t d', fst (isValid (snd (fst (reconnect c d))) t d') = false).
Proof.
  unfold reconnect.
  destruct (mysql_init d) as [h|] eqn:Hi;
    [destruct (mysql_real_connect d (Some h)) eqn:Hc|]; simpl.
  - repeat split; try done.
    + intros _. by exists h.
    + intros h0 ->. done.
    + intros -> h0 Hin. absurd_elem Hin.
  - repeat split; try done.
    + intros (h0 & [= <-] & Hc'). congruence.
    + intros h0 ->. done.
    + intros -> h0 Hin. absurd_elem Hin.
  - repeat split; try done.
    + by intros (h0 & ? & _).
    + intros h0 ->. done.
    + intros -> h0 Hin. absurd_elem Hin.
Qed.

(** ** Borrowing *)

Lemma isValid_reconnect_addr conn d :
  addr (refreshsAliveTime (snd (fst (reconnect conn d))) d) = addr conn.
Proof. simpl. apply reconnect_addr. Qed.

Lemma last_snoc_notify (l : list event) : last (l ++ [ev_notify_all]) = Some ev_notify_all.
Proof. apply last_snoc. Qed.

Lemma getconnection_take_front conn p d :
  exists c' p' ev,
    getconnection_take conn p d = (Some c', p', ev)
    /\ addr c' = addr conn
    /\ _connectionQue p' = _connectionQue p
    /\ same_config p p'
    /\ _shutdown p' = _shutdown p
    /\ last ev = Some ev_notify_all
    /\ (raises d = false
        \/ fst (isValid conn isValid_default_timeout d) = true ->
        _connectionCnt p' = _connectionCnt p)
    /\ (forall c, ev_delete c ∉ ev).
Proof.
  unfold getconnection_take, same_config.
  pose proof (fun c (H : ev_delete c ∈ snd (isValid conn isValid_default_timeout d)) =>
                ltac:(unfold isValid in H; destruct (_conn conn);
                      absurd_elem H) : False) as Hv.
  pose proof (fun c (H : ev_delete c ∈ snd (reconnect conn d)) =>
                ltac:(unfold reconnect in H; destruct (_conn conn);
                      destruct (mysql_init d);
                      try destruct (mysql_real_connect d _);
                      absurd_elem H) : False) as Hr.
  destruct (isValid conn isValid_default_timeout d) as [[] ev0];
    simpl in Hv.
  - eexists _, _, _. split; [reflexivity|]. rewrite last_snoc.
    repeat split; try done.
    intros c H. apply elem_of_app in H as [H|H]; [by eapply Hv|absurd_elem H].
  - destruct (raises d) eqn:Hra.
    + eexists _, _, _. split; [reflexivity|].
      replace (ev0 ++ [Log WARN "Obtained invalid connection!";
                       ev_notify_all; ev_notify_all])
        with ((ev0 ++ [Log WARN "Obtained invalid connection!";
                       ev_notify_all]) ++ [ev_notify_all])
        by (by rewrite <- app_assoc).
      rewrite last_snoc. repeat split; try done.
      * by intros [?|?].
      * intros c H. rewrite <- app_assoc in H.
        apply elem_of_app in H as [H|H]; [by eapply Hv|absurd_elem H].
    + pose proof (reconnect_addr conn d) as Ha.
      destruct (reconnect conn d) as [[ok c1] ev1]. simpl in Ha, Hr.
      eexists _, _, _. split; [reflexivity|].
      rewrite !app_assoc, last_snoc. repeat split; try done.
      intros c H. rewrite <- !app_assoc in H.
      apply elem_of_app in H as [H|H]; [by eapply Hv|].
      apply elem_of_app in H as [H|H]; [absurd_elem H|].
      apply elem_of_app in H as [H|H]; [by eapply Hr|absurd_elem H].
Qed.

(** X2: whenever the idle queue is not empty, [getconnection] returns at
    once with a handle on the session at the front of the queue (the same
    object), leaves the other sessions queued in their order, signals the
    condition variable last, and changes neither the configuration nor the
    flag; the count is unchanged unless the probe failed and the
    [reconnect] call raised; and it never destroys a session. *)
Theorem getconnection_takes_front (ws : list (cv_status * shared))
    (d : driver) (p : connection_pool) (conn : connection)
    (rest : list connection) :
  _connectionQue p = conn :: rest ->
  exists c' p' ev,
    getconnection ws d p = (Handle (Some c'), p', ev)
    /\ addr c' = addr conn
    /\ _connectionQue p' = rest
    /\ same_config p p'
    /\ _shutdown p' = _shutdown p
    /\ last ev = Some ev_notify_all
    /\ (raises d = false
        \/ fst (isValid conn isValid_default_timeout d) = true ->
        _connectionCnt p' = _connectionCnt p)
    /\ (forall c, ev_delete c ∉ ev).
Proof.
  intros Hq.
  destruct (getconnection_take_front conn (set_que rest p) d)
    as (c' & p' & ev & Ht & H).
  exists c', p', ev. split; [|exact H].
  destruct ws as [|[st s] ws]; simpl; by rewrite Hq, Ht.
Qed.

Lemma getconnection_takes_front_witness :
  exists c' p' ev,
    getconnection [] (Sample.server_up 3 9) Sample.two_idle
    = (Handle (Some c'), p', ev)
    /\ addr c' = 1%positive
    /\ _connectionQue p' = [Sample.session 2 0].
Proof.
  destruct (getconnection_takes_front [] (Sample.server_up 3 9)
              Sample.two_idle (Sample.session 1 0) [Sample.session 2 0]
              eq_refl) as (c' & p' & ev & H1 & H2 & H3 & _).
  exists c', p', ev. by repeat split.
Defined.

Lemma resume_same_config s p q : same_config p q -> same_config (resume s p) q.
Proof. done. Qed.

(** X3: while the idle queue stays empty, [getconnection] never returns a
    handle.  It throws the runtime error "No available connections!" if
    one of the waits times out and is still waiting otherwise; a wake-up
    without time-out (spurious or not) that finds the queue empty starts
    a new wait with the full time limit, and the call changes no
    configuration member. *)
Theorem getconnection_empty_queue (ws : list (cv_status * shared))
    (d : driver) (p : connection_pool) :
  _connectionQue p = [] ->
  Forall (fun w => seen_que (snd w) = []) ws ->
  fst (fst (getconnection ws d p))
  = (if existsb is_timeout (map fst ws)
     then Throws (runtime_error "No available connections!")
     else Waiting)
  /\ _connectionQue (snd (fst (getconnection ws d p))) = []
  /\ same_config p (snd (fst (getconnection ws d p)))
  /\ (forall e, e ∈ snd (getconnection ws d p) ->
        e = ev_wait_for (chrono.microseconds (_connectionTimeout p))
        \/ e = Log WARN "Obtain free connection failed!")
  /\ (ev_wait_for (chrono.microseconds (_connectionTimeout p))
        ∈ snd (getconnection ws d p)).
Proof.
  revert p. induction ws as [|[st s] ws IH]; intros p Hq Hall.
  - simpl. rewrite Hq. simpl. split; [done|]. split; [done|].
    split; [done|]. split.
    + intros e He. apply list_elem_of_singleton in He. by left.
    + by apply list_elem_of_singleton.
  - apply Forall_cons in Hall as [Hs Hall]. simpl in Hs.
    cbn [getconnection]. rewrite Hq.
    assert (Hq' : _connectionQue (resume s p) = []) by done.
    rewrite Hq'. destruct st; simpl.
    + specialize (IH (resume s p) Hq' Hall).
      destruct (getconnection ws d (resume s p)) as [[r p'] ev].
      simpl in *. destruct IH as (Hr & Hp & Hc & He & Hin).
      split; [done|]. split; [done|]. split; [exact Hc|]. split.
      * intros e H. apply elem_of_cons in H as [->|H]; [by left|by apply He].
      * apply elem_of_cons. by left.
    + split; [done|]. split; [done|]. split; [done|]. split.
      * intros e H. rewrite !elem_of_cons in H.
        destruct H as [->|[->|H]]; [by left|by right|by apply elem_of_nil in H].
      * apply elem_of_cons. by left.
Qed.

Lemma getconnection_empty_queue_witness :
  fst (fst (getconnection
              [(no_timeout, snapshot Sample.default_pool);
               (timeout, snapshot Sample.default_pool)]
              (Sample.server_up 1 0) Sample.default_pool))
  = Throws (runtime_error "No available connections!").
Proof.
  refine (proj1 (getconnection_empty_queue
            [(no_timeout, snapshot Sample.default_pool);
             (timeout, snapshot Sample.default_pool)]
            (Sample.server_up 1 0) Sample.default_pool eq_refl _)).
  repeat constructor.
Defined.

(** X4: borrowing the front session and returning it, healthy both times,
    leaves the pool as it was except that the session has moved from the
    front of the idle queue to its back with a fresh alive time: the count
    and every other member are unchanged. *)
Theorem borrow_and_return_rotates (d1 d2 : driver) (p : connection_pool)
    (conn : connection) (rest : list connection) :
  _connectionQue p = conn :: rest ->
  fst (isValid conn isValid_default_timeout d1) = true ->
  fst (isValid conn isValid_default_timeout d2) = true ->
  getconnection [] d1 p
  = (Handle (Some conn), set_que rest p,
     snd (isValid conn isValid_default_timeout d1) ++ [ev_notify_all])
  /\ PooledConnection_dtor (Some (set_que rest p)) (Some conn) d2
     = (Some (set_que (rest ++ [refreshsAliveTime conn d2]) p),
        snd (isValid conn isValid_default_timeout d2) ++ [ev_notify_all]).
Proof.
  intros Hq H1 H2. simpl. rewrite Hq. unfold getconnection_take, deleter.
  destruct (isValid conn isValid_default_timeout d1) as [v1 e1].
  destruct (isValid conn isValid_default_timeout d2) as [v2 e2].
  simpl in H1, H2. by subst v1 v2.
Qed.

Lemma borrow_and_return_rotates_witness :
  getconnection [] (Sample.server_up 3 5) Sample.two_idle
  = (Handle (Some (Sample.session 1 0)),
     set_que [Sample.session 2 0] Sample.two_idle, [ev_notify_all])
  /\ PooledConnection_dtor
       (Some (set_que [Sample.session 2 0] Sample.two_idle))
       (Some (Sample.session 1 0)) (Sample.server_up 4 8)
     = (Some (set_que [Sample.session 2 0; Sample.session 1 8]
                Sample.two_idle), [ev_notify_all]).
Proof.
  exact (borrow_and_return_rotates (Sample.server_up 3 5)
           (Sample.server_up 4 8) Sample.two_idle (Sample.session 1 0)
           [Sample.session 2 0] eq_refl eq_refl eq_refl).
Defined.

(** ** One pass of the scanner *)

Lemma isValid_no_notify c t d : ev_notify_all ∉ snd (isValid c t d).
Proof. unfold isValid. intros H. destruct (_conn c); absurd_elem H. Qed.

Lemma reconnect_no_notify c d : ev_notify_all ∉ snd (reconnect c d).
Proof.
  unfold reconnect. intros H.
  destruct (_conn c); destruct (mysql_init d);
    try destruct (mysql_real_connect d _); absurd_elem H.
Qed.

Lemma reconnect_alivetime c d :
  _alivetime (snd (fst (reconnect c d))) = _alivetime c.
Proof.
  unfold reconnect. destruct (mysql_init d); [|done].
  by destruct (mysql_real_connect d _).
Qed.


Lemma scan_loop_usable ds i conn rest p v :
  usable (ds i) conn ->
  exists conn1,
    addr conn1 = addr conn
    /\ _alivetime conn1 = _alivetime conn
    /\ (fst (isValid conn isValid_default_timeout (ds i)) = true ->
        conn1 = conn)
    /\ fst (scan_loop ds i (conn :: rest) p v)
       = if (getAliveTime conn (ds i) >=? to_int (_maxIdleTime p * 1000))
            && (_connectionCnt p >? _initSize p)
         then fst (scan_loop ds (S i) rest (cnt_decr p) v)
         else fst (scan_loop ds (S i) rest p (v ++ [conn1])).
Proof.
  unfold usable. intros Hu. cbn [scan_loop].
  pose proof (reconnect_addr conn (ds i)) as Ha.
  pose proof (reconnect_alivetime conn (ds i)) as Ht.
  destruct (isValid conn isValid_default_timeout (ds i)) as [[] ev0];
    simpl in Hu.
  - exists conn. split; [done|]. split; [done|]. split; [done|].
    cbn [negb]. destruct (_ && _).
    + by destruct (scan_loop ds (S i) rest (cnt_decr p) v) as [[p' v'] ev].
    + by destruct (scan_loop ds (S i) rest p (v ++ [conn])) as [[p' v'] ev].
  - destruct Hu as [Hu|Hu]; [done|].
    destruct (reconnect conn (ds i)) as [[ok c1] ev1]. simpl in *. subst ok.
    exists c1. split; [done|]. split; [done|]. split; [done|].
    unfold getAliveTime. rewrite Ht. destruct (_ && _).
    + by destruct (scan_loop ds (S i) rest (cnt_decr p) v) as [[p' v'] ev].
    + by destruct (scan_loop ds (S i) rest p (v ++ [c1])) as [[p' v'] ev].
Qed.

Lemma scan_loop_config ds : forall que i p v,
  same_config p (fst (fst (scan_loop ds i que p v)))
  /\ _shutdown (fst (fst (scan_loop ds i que p v))) = _shutdown p.
Proof.
  induction que as [|conn rest IH]; intros i p v; [done|].
  cbn [scan_loop].
  pose proof (IH (S i) (cnt_decr p) v) as IHd.
  pose proof (fun c => IH (S i) p (v ++ [c])) as IHk.
  destruct (isValid conn isValid_default_timeout (ds i)) as [[] ev0];
    [| destruct (reconnect conn (ds i)) as [[[] c1] ev1] ];
    cbn [negb]; try destruct (_ && _);
    match goal with
    | |- context [scan_loop ds (S i) rest (cnt_decr p) v] =>
        by destruct (scan_loop ds (S i) rest (cnt_decr p) v) as [[p' v'] ev]
    | |- context [scan_loop ds (S i) rest p (v ++ [?c])] =>
        specialize (IHk c);
        by destruct (scan_loop ds (S i) rest p (v ++ [c])) as [[p' v'] ev]
    end.
Qed.

Lemma scan_loop_no_notify ds : forall que i p v,
  ev_notify_all ∉ snd (scan_loop ds i que p v).
Proof.
  induction que as [|conn rest IH]; intros i p v.
  - simpl. apply not_elem_of_nil.
  - cbn [scan_loop].
    pose proof (IH (S i) (cnt_decr p) v) as IHd.
    pose proof (fun c => IH (S i) p (v ++ [c])) as IHk.
    pose proof (isValid_no_notify conn isValid_default_timeout (ds i)) as Hv.
    pose proof (reconnect_no_notify conn (ds i)) as Hr.
    destruct (isValid conn isValid_default_timeout (ds i)) as [[] ev0];
      [| destruct (reconnect conn (ds i)) as [[[] c1] ev1] ];
      cbn [negb]; try destruct (_ && _);
      match goal with
      | |- context [scan_loop ds (S i) rest (cnt_decr p) v] =>
          destruct (scan_loop ds (S i) rest (cnt_decr p) v) as [[p' v'] ev]
      | |- context [scan_loop ds (S i) rest p (v ++ [?c])] =>
          specialize (IHk c);
          destruct (scan_loop ds (S i) rest p (v ++ [c])) as [[p' v'] ev]
      end;
      simpl in *; intros H;
      repeat first
        [ apply elem_of_app in H as [H|H]
        | apply elem_of_cons in H as [H|H] ];
      try discriminate H; try (by apply elem_of_nil in H); try done;
      by apply connection_delete_no_notify in H.
Qed.

(** The members a pass leaves alone, and when it signals. *)
Lemma scan_pass_frame (ds : nat -> driver) (p : connection_pool) :
  same_config p (fst (scan_pass ds p))
  /\ _shutdown (fst (scan_pass ds p)) = _shutdown p
  /\ (ev_notify_all ∈ snd (scan_pass ds p)
      <-> _connectionCnt (fst (scan_pass ds p))
          < _initSize (fst (scan_pass ds p))).
Proof.
  unfold scan_pass.
  pose proof (scan_loop_config ds (_connectionQue p) 0%nat p []) as [Hc Hs].
  pose proof (scan_loop_no_notify ds (_connectionQue p) 0%nat p []) as Hn.
  destruct (scan_loop ds 0 (_connectionQue p) p []) as [[p1 v] ev].
  simpl in *. split; [exact Hc|]. split; [exact Hs|].
  destruct (Z.ltb_spec (_connectionCnt p1) (_initSize p1)).
  - rewrite elem_of_app, list_elem_of_singleton. tauto.
  - rewrite app_nil_r. split; [done|lia].
Qed.

(** X5: a pass of the scanner only removes sessions from the idle queue.
    The sessions left are sessions that were queued, in their original
    relative order; the configuration and the shutdown flag are
    untouched; and the condition variable is signalled at the end of the
    pass exactly when the count has fallen below [_initSize]. *)
Theorem scan_pass_keeps_order (ds : nat -> driver) (p : connection_pool) :
  map addr (_connectionQue (fst (scan_pass ds p)))
    `sublist_of` map addr (_connectionQue p)
  /\ (length (_connectionQue (fst (scan_pass ds p)))
      <= length (_connectionQue p))%nat
  /\ same_config p (fst (scan_pass ds p))
  /\ _shutdown (fst (scan_pass ds p)) = _shutdown p
  /\ (ev_notify_all ∈ snd (scan_pass ds p)
      <-> _connectionCnt (fst (scan_pass ds p))
          < _initSize (fst (scan_pass ds p))).
Proof.
  pose proof (scan_pass_order ds p) as Ho.
  split; [exact Ho|]. split.
  { apply sublist_length in Ho. by rewrite !length_map in Ho. }
  apply scan_pass_frame.
Qed.



Lemma set_que_same p : set_que (_connectionQue p) p = p.
Proof. by destruct p. Qed.

Lemma scan_loop_nothing_to_do ds : forall que i p v,
  (forall k c, que !! k = Some c ->
     fst (isValid c isValid_default_timeout (ds (i + k)%nat)) = true
     /\ (getAliveTime c (ds (i + k)%nat) < to_int (_maxIdleTime p * 1000)
         \/ _connectionCnt p <= _initSize p)) ->
  fst (scan_loop ds i que p v) = (p, v ++ que).
Proof.
  induction que as [|conn rest IH]; intros i p v Hall.
  - simpl. by rewrite app_nil_r.
  - pose proof (Hall 0%nat conn eq_refl) as [Hv Hy].
    rewrite Nat.add_0_r in Hv, Hy.
    destruct (scan_loop_usable ds i conn rest p v (or_introl Hv))
      as (c1 & _ & _ & Hc1 & ->).
    rewrite (Hc1 Hv).
    replace ((getAliveTime conn (ds i) >=? to_int (_maxIdleTime p * 1000))
             && (_connectionCnt p >? _initSize p)) with false.
    + rewrite IH.
      * by rewrite <- app_assoc.
      * intros k c Hk. specialize (Hall (S k) c Hk).
        by rewrite Nat.add_succ_r in Hall.
    + symmetry. apply andb_false_iff. destruct Hy; [left|right]; lia.
Qed.

(** X7: a pass of the scanner over idle sessions that all pass their probe
    changes nothing when there is nothing to trim, that is when every
    session, at the moment it is examined, is younger than the threshold
    the code uses ([_maxIdleTime * 1000] as an [int], in clock ticks), or
    the count is not above [_initSize]: the pool after the pass is the
    pool before it, with the same sessions in the same order, and nothing
    is signalled unless the count was already below [_initSize]. *)
Theorem scan_pass_nothing_to_do (ds : nat -> driver) (p : connection_pool) :
  (forall k c, _connectionQue p !! k = Some c ->
     fst (isValid c isValid_default_timeout (ds k)) = true
     /\ (getAliveTime c (ds k) < to_int (_maxIdleTime p * 1000)
         \/ _connectionCnt p <= _initSize p)) ->
  fst (scan_pass ds p) = p
  /\ (ev_notify_all ∈ snd (scan_pass ds p)
      <-> _connectionCnt p < _initSize p).
Proof.
  intros Hall.
  pose proof (scan_loop_nothing_to_do ds (_connectionQue p) 0%nat p [] Hall)
    as Hl.
  pose proof (scan_pass_frame ds p) as (_ & _ & Hn).
  assert (Hp : fst (scan_pass ds p) = p).
  { unfold scan_pass.
    destruct (scan_loop ds 0 (_connectionQue p) p []) as [[p1 v] ev].
    simpl in *. injection Hl as -> ->. apply set_que_same. }
  rewrite Hp in Hn. split; [exact Hp | exact Hn].
Qed.

Lemma scan_pass_nothing_to_do_witness :
  fst (scan_pass (fun _ => Sample.server_up 9 10) Sample.two_idle)
  = Sample.two_idle.
Proof.
  refine (proj1 (scan_pass_nothing_to_do (fun _ => Sample.server_up 9 10)
                   Sample.two_idle _)).
  intros k c Hk.
  change (_connectionQue Sample.two_idle)
    with [Sample.session 1 0; Sample.session 2 0] in Hk.
  destruct k as [|[|k]]; simpl in Hk; [| |discriminate Hk];
    injection Hk as <-; (split; [reflexivity|left; reflexivity]).
Defined.

Lemma scan_loop_trims_oldest ds : forall que i p v,
  (forall k c, que !! k = Some c -> usable (ds (i + k)%nat) c) ->
  (forall k c, que !! k = Some c ->
     to_int (_maxIdleTime p * 1000) <= getAliveTime c (ds (i + k)%nat)) ->
  in_int (_connectionCnt p) -> in_int (_initSize p) ->
  _initSize p <= _connectionCnt p ->
  let r := fst (scan_loop ds i que p v) in
  _connectionCnt (fst r)
  = Z.max (_initSize p) (_connectionCnt p - Z.of_nat (length que))
  /\ map addr (snd r)
     = map addr v
       ++ drop (Z.to_nat (_connectionCnt p - _connectionCnt (fst r)))
               (map addr que).
Proof.
  induction que as [|conn rest IH]; intros i p v Hu Ho Hc Hi Hle.
  - simpl. rewrite Z.sub_0_r, Z.max_r by lia.
    by rewrite drop_nil, app_nil_r.
  - assert (Hu' : forall k c, rest !! k = Some c ->
               usable (ds (S i + k)%nat) c).
    { intros k c Hk. specialize (Hu (S k) c Hk).
      by rewrite Nat.add_succ_r in Hu. }
    assert (Ho' : forall k c, rest !! k = Some c ->
               to_int (_maxIdleTime p * 1000)
               <= getAliveTime c (ds (S i + k)%nat)).
    { intros k c Hk. specialize (Ho (S k) c Hk).
      by rewrite Nat.add_succ_r in Ho. }
    pose proof (Hu 0%nat conn eq_refl) as Hu0.
    pose proof (Ho 0%nat conn eq_refl) as Ho0.
    rewrite Nat.add_0_r in Hu0, Ho0.
    destruct (scan_loop_usable ds i conn rest p v Hu0)
      as (c1 & Ha & _ & _ & Heq).
    cbv zeta. rewrite Heq. clear Heq.
    destruct (Z.geb_spec (getAliveTime conn (ds i))
                (to_int (_maxIdleTime p * 1000))); [|lia].
    cbn [andb]. destruct (Z.gtb_spec (_connectionCnt p) (_initSize p)).
    + assert (Hdec : _connectionCnt (cnt_decr p) = _connectionCnt p - 1).
      { simpl. apply to_int_id. unfold in_int, INT_MIN, INT_MAX in *. lia. }
      destruct (IH (S i) (cnt_decr p) v Hu' Ho') as [H1 H2].
      { rewrite Hdec. unfold in_int in *. lia. }
      { done. }
      { rewrite Hdec. simpl. lia. }
      rewrite Hdec in H1, H2. simpl in H1, H2.
      cbn [length]. split; [rewrite H1; lia|].
      rewrite H2. f_equal.
      replace (Z.to_nat (_connectionCnt p
                 - _connectionCnt (fst (fst (scan_loop ds (S i) rest
                                               (cnt_decr p) v)))))
        with (S (Z.to_nat (_connectionCnt p - 1
                 - _connectionCnt (fst (fst (scan_loop ds (S i) rest
                                               (cnt_decr p) v))))))
        by (rewrite H1; lia).
      done.
    + destruct (IH (S i) p (v ++ [c1]) Hu' Ho' Hc Hi Hle) as [H1 H2].
      cbn [length]. split; [rewrite H1; lia|].
      rewrite H2, map_app, <- app_assoc. simpl. rewrite Ha. f_equal.
      replace (Z.to_nat (_connectionCnt p
                 - _connectionCnt (fst (fst (scan_loop ds (S i) rest p
                                               (v ++ [c1]))))))
        with 0%nat by (rewrite H1; lia).
      done.
Qed.

(** X8: in a pass of the scanner in which every idle session, at the
    moment it is examined, is usable (it passes its probe or is
    reconnected) and has an alive time of at least the threshold the code
    uses ([_maxIdleTime * 1000] as an [int], in clock ticks), and the
    count starts at or above [_initSize], sessions are destroyed from the
    front of the queue until the count is [_initSize] or the queue is
    exhausted: the count ends at the larger of [_initSize] and the count
    minus the length of the queue, and the sessions kept are the last ones
    of the queue. *)
Theorem scan_pass_trims_oldest (ds : nat -> driver) (p : connection_pool) :
  (forall k c, _connectionQue p !! k = Some c -> usable (ds k) c) ->
  (forall k c, _connectionQue p !! k = Some c ->
     to_int (_maxIdleTime p * 1000) <= getAliveTime c (ds k)) ->
  in_int (_connectionCnt p) ->
  in_int (_initSize p) ->
  _initSize p <= _connectionCnt p ->
  let p' := fst (scan_pass ds p) in
  _connectionCnt p'
  = Z.max (_initSize p)
          (_connectionCnt p - Z.of_nat (length (_connectionQue p)))
  /\ map addr (_connectionQue p')
     = drop (Z.to_nat (_connectionCnt p - _connectionCnt p'))
            (map addr (_connectionQue p)).
Proof.
  intros Hu Ho Hc Hi Hle.
  pose proof (scan_loop_trims_oldest ds (_connectionQue p) 0%nat p []
                Hu Ho Hc Hi Hle) as H.
  unfold scan_pass.
  destruct (scan_loop ds 0 (_connectionQue p) p []) as [[p1 v] ev].
  simpl in *. exact H.
Qed.

Lemma scan_pass_trims_oldest_witness :
  let p' := fst (scan_pass (fun _ => Sample.server_up 9 60000)
                   Sample.two_idle) in
  _connectionCnt p' = 1 /\ map addr (_connectionQue p') = [2%positive].
Proof.
  refine (scan_pass_trims_oldest (fun _ => Sample.server_up 9 60000)
            Sample.two_idle _ _ _ _ _).
  - intros k c Hk.
    change (_connectionQue Sample.two_idle)
      with [Sample.session 1 0; Sample.session 2 0] in Hk.
    destruct k as [|[|k]]; simpl in Hk; [| |discriminate Hk];
      injection Hk as <-; left; reflexivity.
  - intros k c Hk.
    change (_connectionQue Sample.two_idle)
      with [Sample.session 1 0; Sample.session 2 0] in Hk.
    destruct k as [|[|k]]; simpl in Hk; [| |discriminate Hk];
      injection Hk as <-; vm_compute; discriminate.
  - vm_compute. split; discriminate.
  - vm_compute. split; discriminate.
  - vm_compute. discriminate.
Defined.




(** ** A pool whose configuration did not load *)

Lemma exec_degraded w a w' ev :
  workers w = false -> _connectionQue (pool w) = [] -> handles w = [] ->
  exec w a = Some (w', ev) ->
  w' = w /\ exists d, a = a_acquire_timeout d.
Proof.
  intros Hw Hq Hh. destruct w as [p wk hs rw]. simpl in *. subst wk hs.
  destruct a as [d|d|d|i d|i|ds]; simpl; try done.
  - by rewrite Hq.
  - rewrite Hq. simpl. rewrite ?Hq, resume_snapshot.
    intros [= <- <-]. eauto.
Qed.

(** X10: when [loadConfigFile] returned false, the pool that the
    constructor leaves behind can never lend a session.  Whatever the
    callers do, the only thing that can happen is a [getconnection] that
    times out: the idle queue stays empty, no handle ever exists, the
    count stays 0 and no thread ever refills the pool. *)
Theorem degraded_pool_never_lends (e : config_env) (mem : connection_pool)
    (ds : nat -> driver) (w0 : world) (ev0 : list event)
    (acts : list action) (w : world) :
  connection_pool_ctor e mem ds = Returned (w0, ev0) ->
  workers w0 = false ->
  run w0 acts = Some w ->
  w = w0
  /\ _connectionQue (pool w) = [] /\ handles w = [] /\ total w = 0
  /\ Forall (fun a => exists d, a = a_acquire_timeout d) acts
  /\ forall d, exec w (a_acquire d) = None.
Proof.
  intros Hctor Hw Hrun.
  assert (H0 : _connectionQue (pool w0) = [] /\ handles w0 = []
               /\ total w0 = 0).
  { unfold connection_pool_ctor in Hctor.
    destruct (loadConfigFile e EmptyString (set_que [] (set_cnt 0 mem)))
      as [[[[] p1] ev1]|x] eqn:E; [| |done].
    - injection Hctor as <- <-. done.
    - injection Hctor as <- <-.
      apply loadConfigFile_keeps in E as [Hq Hc]. by repeat split. }
  destruct H0 as (Hq & Hh & Ht).
  assert (Hgen : w = w0
                 /\ Forall (fun a => exists d, a = a_acquire_timeout d) acts).
  { clear Hctor Ht ev0. revert Hrun.
    induction acts as [|a acts IH]; simpl.
    - intros [= <-]. by split.
    - destruct (exec w0 a) as [[w1 ev1]|] eqn:E; [|done].
      destruct (exec_degraded _ _ _ _ Hw Hq Hh E) as [-> Ha].
      intros Hrun. destruct (IH Hrun) as [-> Hall]. split; [done|].
      by constructor. }
  destruct Hgen as [-> Hall]. repeat split; try done.
  intros d. simpl. by rewrite Hq.
Qed.

Lemma degraded_pool_never_lends_witness :
  run (World Sample.mem0 false [] [])
      [a_acquire_timeout (Sample.server_up 1 0)]
  = Some (World Sample.mem0 false [] [])
  /\ exec (World Sample.mem0 false [] []) (a_acquire (Sample.server_up 1 0))
     = None.
Proof.
  pose proof (degraded_pool_never_lends
                (Sample.env_ini (Sample.cm_table false [])) Sample.mem0
                Sample.ds_up (World Sample.mem0 false [] []) _
                [a_acquire_timeout (Sample.server_up 1 0)]
                (World Sample.mem0 false [] [])
                eq_refl eq_refl eq_refl) as H.
  split; [reflexivity|]. apply H.
Defined.

(** ** Every session has one holder *)

Lemma held_delete_perm (hs : list PooledConnection) (i : nat)
    (c : connection) :
  hs !! i = Some (Some c) -> held hs ≡ₚ c :: held (delete i hs).
Proof.
  revert i. induction hs as [|a hs IH]; intros [|i]; simpl; try done.
  - by intros [= ->].
  - intros Hi. specialize (IH _ Hi). destruct a as [b|]; simpl; [|done].
    rewrite IH. apply Permutation_swap.
Qed.

Lemma held_delete_none (hs : list PooledConnection) (i : nat) :
  hs !! i = Some None -> held (delete i hs) = held hs.
Proof.
  revert i. induction hs as [|a hs IH]; intros [|i]; simpl; try done.
  - by intros [= ->].
  - intros Hi. specialize (IH _ Hi). destruct a; simpl; by rewrite IH.
Qed.

Lemma held_release_perm (hs : list PooledConnection) (i : nat)
    (c : connection) :
  hs !! i = Some (Some c) -> held hs ≡ₚ c :: held (<[i := None]> hs).
Proof.
  revert i. induction hs as [|a hs IH]; intros [|i]; simpl; try done.
  - by intros [= ->].
  - intros Hi. specialize (IH _ Hi). destruct a as [b|]; simpl; [|done].
    rewrite IH. apply Permutation_swap.
Qed.

Lemma held_release_none (hs : list PooledConnection) (i : nat) :
  hs !! i = Some None -> <[i := None]> hs = hs.
Proof. apply list_insert_id. Qed.

Lemma perm_move_to_handles (a : positive) (xs hs rs : list positive) :
  xs ++ (hs ++ [a]) ++ rs ≡ₚ a :: xs ++ hs ++ rs.
Proof.
  rewrite <- (assoc_L (++) hs [a] rs). simpl.
  rewrite (assoc_L (++) xs hs (a :: rs)), <- Permutation_middle.
  by rewrite (assoc_L (++)).
Qed.

Lemma perm_move_to_queue (a : positive) (xs hs rs : list positive) :
  (xs ++ [a]) ++ hs ++ rs ≡ₚ xs ++ (a :: hs) ++ rs.
Proof. by rewrite <- (assoc_L (++) xs [a]). Qed.

Lemma perm_move_to_raw (a : positive) (xs hs rs : list positive) :
  xs ++ hs ++ a :: rs ≡ₚ xs ++ (a :: hs) ++ rs.
Proof. simpl. f_equiv. by rewrite Permutation_middle. Qed.

Lemma exec_addrs w a w' ev :
  exec w a = Some (w', ev) ->
  allocates_fresh w a ->
  NoDup (addrs w) -> NoDup (addrs w').
Proof.
  unfold addrs, live. intros Hex Hfresh Hnd.
  destruct a as [d|d|d|i d|i|ds]; simpl in Hex, Hfresh.
  - (* producer *)
    destruct (workers w); [|done].
    destruct (_connectionQue (pool w)) eqn:Hq; [|done].
    unfold produce_body in Hex.
    destruct (Z.ltb_spec (_connectionCnt (pool w)) (_maxSize (pool w)));
      injection Hex as <- <-; simpl; rewrite Hq; simpl in *; [|done].
    apply NoDup_cons. split; [|done].
    unfold addrs, live in Hfresh. rewrite Hq in Hfresh. by apply Hfresh.
  - (* getconnection finds a session *)
    destruct (_connectionQue (pool w)) as [|conn rest] eqn:Hq; [done|].
    destruct (getconnection_take_front conn (set_que rest (pool w)) d)
      as (c' & p' & ev' & Ht & Ha & Hq' & _).
    rewrite Ht in Hex. injection Hex as <- <-. simpl in *.
    rewrite Hq', held_app_some, map_app. simpl. rewrite Ha.
    by rewrite perm_move_to_handles.
  - (* getconnection times out *)
    destruct (_connectionQue (pool w)) as [|conn rest] eqn:Hq.
    + rewrite resume_snapshot in Hex. injection Hex as <- <-. simpl.
      by rewrite Hq.
    + by destruct (getconnection_take conn (set_que rest (pool w)) d)
        as [[h p] ev'].
  - (* a handle is destroyed *)
    destruct (handles w !! i) as [[c|]|] eqn:Hi; [| |done].
    + unfold PooledConnection_dtor in Hex.
      destruct (deleter_alive (pool w) c d) as (p' & ev' & Hd & _ & Hcase).
      rewrite Hd in Hex. injection Hex as <- <-. simpl.
      pose proof (held_delete_perm _ _ _ Hi) as Hp.
      rewrite Hp in Hnd. simpl in Hnd.
      destruct Hcase as [[-> _]|[-> _]].
      * rewrite map_app. simpl. by rewrite perm_move_to_queue.
      * refine (sublist_NoDup _ _ Hnd _).
        apply sublist_app; [done|]. by apply sublist_cons.
    + simpl in Hex. injection Hex as <- <-. simpl.
      by rewrite (held_delete_none _ _ Hi).
  - (* release *)
    destruct (handles w !! i) as [[c|]|] eqn:Hi; [| |done].
    + simpl in Hex. injection Hex as <- <-. simpl.
      pose proof (held_release_perm _ _ _ Hi) as Hp.
      rewrite Hp in Hnd. simpl in Hnd.
      by rewrite perm_move_to_raw.
    + simpl in Hex. injection Hex as <- <-. simpl.
      assert (Hr : held (<[i := None]> (handles w)) = held (handles w))
        by (by rewrite (held_release_none _ _ Hi)).
      unfold PooledConnection in *. by rewrite Hr.
  - (* one pass of the scanner *)
    destruct (workers w); [|done].
    pose proof (scan_pass_order ds (pool w)) as Ho.
    destruct (scan_pass ds (pool w)) as [p ev']. injection Hex as <- <-.
    simpl in *. refine (sublist_NoDup _ _ Hnd _).
    by apply sublist_app.
Qed.

(** X11: every session has one holder.  If the sessions that exist have
    distinct addresses and the allocator never hands the producer the
    address of a live object, then after any sequence of critical
    sections and handle operations (borrowing, returning, detaching,
    production, scanning, in any order, exceptions included) the addresses
    of the idle sessions, of the sessions held by handles and of the
    detached sessions are still pairwise distinct: no session is at the
    same time in the idle queue and in a handle, or in two handles. *)
Theorem sessions_have_one_holder (w0 : world) (acts : list action)
    (w : world) :
  NoDup (addrs w0) ->
  allocator_ok w0 acts ->
  run w0 acts = Some w ->
  NoDup (addrs w)
  /\ (forall c, c ∈ _connectionQue (pool w) ->
                addr c ∉ map addr (live w)).
Proof.
  intros Hnd Hok Hrun.
  assert (H : NoDup (addrs w)).
  { revert w0 Hnd Hok Hrun. induction acts as [|a acts IH];
      intros w0 Hnd Hok; simpl.
    - by intros [= <-].
    - destruct Hok as [Hf Hok].
      destruct (exec w0 a) as [[w1 ev]|] eqn:E; [|done].
      apply IH; [|done]. by eapply exec_addrs. }
  split; [done|]. unfold addrs in H.
  apply NoDup_app in H as (_ & Hdis & _).
  intros c Hc Hin. apply (Hdis (addr c)).
  - apply list_elem_of_fmap. by exists c.
  - apply elem_of_app. by left.
Qed.

Lemma sessions_have_one_holder_witness :
  exists w, run Sample.small_start Sample.small_run = Some w
            /\ NoDup (addrs w).
Proof.
  eexists. split; [vm_compute; reflexivity|].
  refine (proj1 (sessions_have_one_holder Sample.small_start
                   Sample.small_run _ _ _ _)).
  - vm_compute. apply NoDup_singleton.
  - vm_compute. repeat split. intros _ H. absurd_elem H.
  - vm_compute. reflexivity.
Defined.

(** ** The producer *)




(** ** Strings *)

Lemma string_length_append (s1 s2 : string) :
  String.length (s1 ++ s2)%string = (String.length s1 + String.length s2)%nat.
Proof. induction s1 as [|a s1 IH]; simpl; [done|]. by rewrite IH. Qed.

Lemma substring_skip_prefix (k s : string) (n m : nat) :
  substring (String.length k + n) m (k ++ s)%string = substring n m s.
Proof. induction k as [|a k IH]; simpl; [done|exact IH]. Qed.

Lemma substring_prefix (k r : string) :
  substring 0 (String.length k) (k ++ r)%string = k.
Proof.
  induction k as [|a k IH]; simpl.
  - by destruct r.
  - by rewrite IH.
Qed.

Lemma substring_all (s : string) (n : nat) :
  substring 0 (String.length s + n) s = s.
Proof.
  induction s as [|a s IH]; simpl.
  - by destruct n.
  - by rewrite IH.
Qed.

Lemma index_char_none_cons (c a : ascii) (k : string) :
  index 0 (String c EmptyString) (String a k) = None ->
  c <> a /\ index 0 (String c EmptyString) k = None.
Proof.
  simpl. destruct (Ascii.ascii_dec c a) as [->|Hne].
  - by destruct k.
  - intros H. split; [done|].
    by destruct (index 0 (String c EmptyString) k).
Qed.

Lemma index_char_first (c : ascii) (k r : string) :
  index 0 (String c EmptyString) k = None ->
  index 0 (String c EmptyString) (k ++ String c r)%string
  = Some (String.length k).
Proof.
  induction k as [|a k IH]; intros Hk.
  - simpl. destruct (Ascii.ascii_dec c c); [|done]. by destruct r.
  - apply index_char_none_cons in Hk as [Hne Hk].
    specialize (IH Hk).
    change (String a k ++ String c r)%string
      with (String a (k ++ String c r)%string).
    change (index 0 (String c EmptyString) (String a (k ++ String c r)%string))
      with (if String.prefix (String c EmptyString) (String a (k ++ String c r)%string)
            then Some 0%nat
            else match index 0 (String c EmptyString) (k ++ String c r)%string
                 with Some n => Some (S n) | None => None end).
    rewrite IH. simpl. by destruct (Ascii.ascii_dec c a).
Qed.

Lemma index_char_absent (c : ascii) (k r : string) :
  index 0 (String c EmptyString) k = None ->
  index 0 (String c EmptyString) r = None ->
  index 0 (String c EmptyString) (k ++ r)%string = None.
Proof.
  induction k as [|a k IH]; intros Hk Hr; [done|].
  apply index_char_none_cons in Hk as [Hne Hk].
  specialize (IH Hk Hr).
  change (String a k ++ r)%string with (String a (k ++ r)%string).
  change (index 0 (String c EmptyString) (String a (k ++ r)%string))
    with (if String.prefix (String c EmptyString) (String a (k ++ r)%string)
          then Some 0%nat
          else match index 0 (String c EmptyString) (k ++ r)%string
               with Some n => Some (S n) | None => None end).
  rewrite IH. simpl. by destruct (Ascii.ascii_dec c a).
Qed.

Lemma index_skip_prefix (pat k s : string) :
  index (String.length k) pat (k ++ s)%string
  = match index 0 pat s with
    | Some n => Some (String.length k + n)%nat
    | None => None
    end.
Proof.
  induction k as [|a k IH]; simpl.
  - by destruct (index 0 pat s).
  - rewrite IH. by destruct (index 0 pat s).
Qed.

Lemma find_last_of_app (c : ascii) (base ext : string) :
  find_last_of c ext = None ->
  find_last_of c (base ++ String c ext)%string = Some (String.length base).
Proof.
  intros He. induction base as [|a base IH]; simpl.
  - by rewrite He, Ascii.eqb_refl.
  - by rewrite IH.
Qed.

(** ** Choosing the configuration backend *)

(** The dispatch of [createConfigManager], as a table. *)
Lemma createConfigManager_table (e : config_env)
    (base ext : string) :
  find_last_of "." ext = None ->
  createConfigManager e (base ++ String "." ext)%string
  = (if String.eqb "ini" (string_tolower ext)
     then if USE_SIMPLE_INI e then Returned (IniConfigManager e)
          else Raised (runtime_error_ptr
                         "INI support not compiled or not found!")
     else if String.eqb "yaml" (string_tolower ext)
             || String.eqb "yml" (string_tolower ext)
          then if USE_YAML_CPP e then Returned (YamlConfigManager e)
               else Raised (runtime_error_ptr
                              "YAML support not compiled or not found!")
          else if USE_SIMPLE_INI e then Returned (IniConfigManager e)
               else Raised (runtime_error_ptr "Not implemented"))
  /\ createConfigManager e ext
     = (if USE_SIMPLE_INI e then Returned (IniConfigManager e)
        else Raised (runtime_error_ptr "Not implemented")).
Proof.
  intros He. unfold createConfigManager. split.
  - rewrite (find_last_of_app "." base ext He).
    replace (substr_from (S (String.length base))
               (base ++ String "." ext)%string) with ext; [done|].
    unfold substr_from.
    replace (S (String.length base)) with (String.length base + 1)%nat by lia.
    rewrite substring_skip_prefix, string_length_append. simpl.
    replace (String.length base + S (String.length ext))%nat
      with (String.length ext + S (String.length base))%nat by lia.
    by rewrite substring_all.
  - by rewrite He.
Qed.

(** X13: [createConfigManager] looks only at the text after the last dot
    of the file name, without regard to case.  "ini" selects the INI
    manager and "yaml" or "yml" the YAML manager, each raising (a pointer
    to a runtime error) when its support was not compiled in; any other
    extension, and a name without a dot, fall back to the INI manager, or
    raise "Not implemented" when there is none. *)
Theorem createConfigManager_by_extension (e : config_env)
    (base ext : string) :
  find_last_of "." ext = None ->
  createConfigManager e (base ++ String "." ext)%string
  = (if String.eqb "ini" (string_tolower ext)
     then if USE_SIMPLE_INI e then Returned (IniConfigManager e)
          else Raised (runtime_error_ptr
                         "INI support not compiled or not found!")
     else if String.eqb "yaml" (string_tolower ext)
             || String.eqb "yml" (string_tolower ext)
          then if USE_YAML_CPP e then Returned (YamlConfigManager e)
               else Raised (runtime_error_ptr
                              "YAML support not compiled or not found!")
          else if USE_SIMPLE_INI e then Returned (IniConfigManager e)
               else Raised (runtime_error_ptr "Not implemented"))
  /\ createConfigManager e ext
     = (if USE_SIMPLE_INI e then Returned (IniConfigManager e)
        else Raised (runtime_error_ptr "Not implemented")).
Proof. apply createConfigManager_table. Qed.

Lemma createConfigManager_by_extension_witness :
  createConfigManager (Sample.env_ini (Sample.cm_table true []))
    "conf.d/pool.YAML"
  = Raised (runtime_error_ptr "YAML support not compiled or not found!").
Proof.
  exact (proj1 (createConfigManager_by_extension
                  (Sample.env_ini (Sample.cm_table true []))
                  "conf.d/pool" "YAML" eq_refl)).
Defined.

Lemma createConfigManager_default e :
  createConfigManager e "db_config.ini"
  = if USE_SIMPLE_INI e then Returned (IniConfigManager e)
    else Raised (runtime_error_ptr "INI support not compiled or not found!").
Proof.
  exact (proj1 (createConfigManager_table e "db_config" "ini" eq_refl)).
Qed.

Lemma loadConfigFile_default_name e p :
  loadConfigFile e EmptyString p = loadConfigFile e "db_config.ini" p.
Proof. reflexivity. Qed.

(** X14: a build without SimpleIni can never construct the pool.  The
    constructor always asks for "db_config.ini", [createConfigManager]
    throws a pointer for it, the [catch] block of [loadConfigFile] (which
    handles [std::exception] only) does not see it, so the fall-back
    parser is not reached and the pointer leaves [getconnect_pool],
    whether or not YAML support is present and whatever the file system
    holds. *)
Theorem getconnect_pool_needs_simple_ini (e : config_env)
    (mem : connection_pool) (ds : nat -> driver) :
  USE_SIMPLE_INI e = false ->
  getconnect_pool None e mem ds
  = Raised (runtime_error_ptr "INI support not compiled or not found!").
Proof.
  intros He. unfold getconnect_pool, connection_pool_ctor.
  rewrite loadConfigFile_default_name. unfold loadConfigFile.
  change (if String.eqb "db_config.ini" EmptyString
          then "db_config.ini" else "db_config.ini") with "db_config.ini".
  by rewrite createConfigManager_default, He.
Qed.

Lemma getconnect_pool_needs_simple_ini_witness :
  getconnect_pool None Inputs.env_yaml_only Sample.mem0 Sample.ds_up
  = Raised (runtime_error_ptr "INI support not compiled or not found!").
Proof.
  exact (getconnect_pool_needs_simple_ini Inputs.env_yaml_only Sample.mem0
           Sample.ds_up eq_refl).
Defined.

(** ** The fall-back parser *)

Lemma parse_line_no_equals p str :
  index 0 "=" str = None -> parse_line p str = p.
Proof. unfold parse_line. by intros ->. Qed.

(** X15: the fall-back parser splits a line at its first '='.  For a key
    without '=' and a value without a line feed, the line "key=value"
    followed by a line feed (and anything after it), or ending the buffer
    without one, is read as exactly that key and that value, whatever
    else the value contains ('=' signs, spaces, a carriage return); the
    value is then stored in the member the key names, and ignored when the
    key is not one of the nine names. *)
Theorem parse_line_key_value (p : connection_pool) (k v r : string) :
  index 0 "=" k = None ->
  index 0 newline v = None ->
  parse_line p (k ++ "=" ++ v ++ newline ++ r)%string = assign_key k v p
  /\ parse_line p (k ++ "=" ++ v)%string = assign_key k v p.
Proof.
  intros Hk Hv. unfold parse_line, assign_key, newline in *.
  change ("=" ++ v ++ String (ascii_of_nat 10) EmptyString ++ r)%string
    with (String "=" (v ++ String (ascii_of_nat 10) r)%string).
  change ("=" ++ v)%string with (String "=" v).
  rewrite !(index_char_first "=" k _ Hk), !substring_prefix.
  rewrite !index_skip_prefix.
  replace (S (String.length k)) with (String.length k + 1)%nat by lia.
  split.
  - change (index 0 (String (ascii_of_nat 10) EmptyString)
              (String "=" (v ++ String (ascii_of_nat 10) r)%string))
      with (match index 0 (String (ascii_of_nat 10) EmptyString)
                    (v ++ String (ascii_of_nat 10) r)%string
            with Some n => Some (S n) | None => None end).
    rewrite (index_char_first _ v r Hv), substring_skip_prefix.
    replace (String.length k + S (String.length v) - String.length k - 1)%nat
      with (String.length v) by lia.
    change (substring 1 (String.length v)
              (String "=" (v ++ String (ascii_of_nat 10) r)%string))
      with (substring 0 (String.length v)
              (v ++ String (ascii_of_nat 10) r)%string).
    by rewrite substring_prefix.
  - change (index 0 (String (ascii_of_nat 10) EmptyString) (String "=" v))
      with (match index 0 (String (ascii_of_nat 10) EmptyString) v
            with Some n => Some (S n) | None => None end).
    rewrite Hv. unfold substr_from.
    rewrite substring_skip_prefix, string_length_append.
    change (substring 1 (String.length k + String.length (String "=" v))
              (String "=" v))
      with (substring 0 (String.length k + String.length (String "=" v)) v).
    replace (String.length k + String.length (String "=" v))%nat
      with (String.length v + S (String.length k))%nat by (simpl; lia).
    by rewrite substring_all.
Qed.

Lemma parse_line_key_value_witness :
  parse_line Sample.mem0 (String.append "password=a=b c" newline)
  = set_password "a=b c" Sample.mem0.
Proof.
  exact (proj1 (parse_line_key_value Sample.mem0 "password" "a=b c"
                  EmptyString eq_refl eq_refl)).
Defined.

Lemma parse_lines_no_equals lines : forall p,
  Forall (fun l => index 0 "=" l = None) lines ->
  fold_left parse_line lines p = p.
Proof.
  induction lines as [|l lines IH]; intros p Hall; simpl; [done|].
  apply Forall_cons in Hall as [Hl Hall].
  rewrite (parse_line_no_equals p l Hl). by apply IH.
Qed.

(** X16: the fall-back parser accepts any file it can open.  When an
    exception is raised inside the [try] block before anything was
    assigned and "db_config.ini" can be opened, [loadConfigFile] returns
    true even if no line of the file holds an '=': the constructor then
    goes on with the indeterminate values of the members, opens that many
    sessions and starts both threads. *)
Theorem fallback_parser_accepts_any_file (e : config_env)
    (mem : connection_pool) (ds : nat -> driver) (what : string)
    (lines : list string) :
  USE_SIMPLE_INI e = true ->
  throw_at e = Some (0%nat, what) ->
  fopen_fgets e "db_config.ini" = Some lines ->
  Forall (fun l => index 0 "=" l = None) lines ->
  connection_pool_ctor e mem ds
  = Returned
      (World (open_initial (Z.to_nat (_initSize mem)) 0 ds
                (set_que [] (set_cnt 0 mem)))
             true [] [],
       [Log ERROR (String.append "Config loading error: " what);
        ev_thread_detach "produce"; ev_thread_detach "scanner"]).
Proof.
  intros Hini Hthrow Hopen Hall. unfold connection_pool_ctor.
  rewrite loadConfigFile_default_name. unfold loadConfigFile.
  change (if String.eqb "db_config.ini" EmptyString
          then "db_config.ini" else "db_config.ini") with "db_config.ini".
  rewrite createConfigManager_default, Hini, Hthrow.
  unfold loadConfigFile_catch. rewrite Hopen.
  by rewrite (parse_lines_no_equals lines _ Hall).
Qed.

Lemma fallback_parser_accepts_any_file_witness :
  connection_pool_ctor Inputs.env_fallback Sample.mem0 Sample.ds_up
  = Returned
      (World Sample.mem0 true [] [],
       [Log ERROR "Config loading error: bad_alloc";
        ev_thread_detach "produce"; ev_thread_detach "scanner"]).
Proof.
  refine (fallback_parser_accepts_any_file Inputs.env_fallback Sample.mem0
            Sample.ds_up "bad_alloc" ["# pool settings"; EmptyString]
            eq_refl eq_refl eq_refl _).
  repeat constructor.
Defined.

(** ** More on borrowing and returning *)

(** X17: a [getconnection] that waits on an empty queue takes the session
    at the front of the queue it finds when it is woken, whether the wait
    ended by a signal or by the time-out: a time-out that coincides with
    a refill still yields a handle, and no error is raised. *)
Theorem getconnection_after_wakeup (st : cv_status) (s : shared)
    (ws : list (cv_status * shared)) (d : driver) (p : connection_pool)
    (conn : connection) (rest : list connection) :
  _connectionQue p = [] ->
  seen_que s = conn :: rest ->
  exists c' p' ev,
    getconnection ((st, s) :: ws) d p
    = (Handle (Some c'), p',
       ev_wait_for (chrono.microseconds (_connectionTimeout p)) :: ev)
    /\ addr c' = addr conn
    /\ _connectionQue p' = rest
    /\ same_config p p'
    /\ last ev = Some ev_notify_all.
Proof.
  intros Hq Hs.
  destruct (getconnection_take_front conn (set_que rest (resume s p)) d)
    as (c' & p' & ev & Ht & Ha & Hq' & Hc & _ & Hl & _).
  exists c', p', ev.
  assert (Hg : getconnection ws d (resume s p) = (Handle (Some c'), p', ev)).
  { destruct ws as [|[st' s'] ws]; simpl; by rewrite Hs, Ht. }
  split; [|split; [exact Ha|split; [exact Hq'|split; [exact Hc|exact Hl]]]].
  cbn [getconnection]. rewrite Hq.
  assert (Hr : _connectionQue (resume s p) = conn :: rest) by done.
  rewrite Hr, Hg. by destruct st.
Qed.

Lemma getconnection_after_wakeup_witness :
  exists c' p' ev,
    getconnection
      [(timeout, Shared [Sample.session 4 0] 5 false)]
      (Sample.server_up 1 2) Sample.default_pool
    = (Handle (Some c'), p', ev_wait_for 100 :: ev)
    /\ addr c' = 4%positive.
Proof.
  destruct (getconnection_after_wakeup timeout
              (Shared [Sample.session 4 0] 5 false) []
              (Sample.server_up 1 2) Sample.default_pool
              (Sample.session 4 0) [] eq_refl eq_refl)
    as (c' & p' & ev & H1 & H2 & _).
  exists c', p', ev. by split.
Defined.

(** X18: when a session that was healthy when it was borrowed fails its
    probe at the moment its handle is destroyed, it does not come back:
    the session is destroyed, the count goes down by one (it wraps only at
    the smallest [int]), the idle queue is left as the borrow left it, and
    the waiters are signalled. *)
Theorem return_of_broken_session_drops_it (d1 d2 : driver)
    (p : connection_pool) (conn : connection) (rest : list connection) :
  _connectionQue p = conn :: rest ->
  fst (isValid conn isValid_default_timeout d1) = true ->
  fst (isValid conn isValid_default_timeout d2) = false ->
  INT_MIN < _connectionCnt p <= INT_MAX ->
  exists ev,
    getconnection [] d1 p
    = (Handle (Some conn), set_que rest p,
       snd (isValid conn isValid_default_timeout d1) ++ [ev_notify_all])
    /\ PooledConnection_dtor (Some (set_que rest p)) (Some conn) d2
       = (Some (cnt_decr (set_que rest p)), ev)
    /\ _connectionCnt (cnt_decr (set_que rest p)) = _connectionCnt p - 1
    /\ _connectionQue (cnt_decr (set_que rest p)) = rest
    /\ ev_delete conn ∈ ev
    /\ last ev = Some ev_notify_all.
Proof.
  intros Hq H1 H2 Hc. simpl. rewrite Hq. unfold getconnection_take, deleter.
  destruct (isValid conn isValid_default_timeout d1) as [v1 e1].
  destruct (isValid conn isValid_default_timeout d2) as [v2 e2].
  simpl in H1, H2. subst v1 v2. eexists. split; [reflexivity|].
  split; [reflexivity|]. split.
  { apply to_int_id. unfold in_int, INT_MIN, INT_MAX in *. lia. }
  split; [done|]. split.
  - rewrite !elem_of_app. right. left. apply connection_delete_deletes.
  - by rewrite (assoc_L (++)), last_snoc.
Qed.

Lemma return_of_broken_session_drops_it_witness :
  exists ev,
    PooledConnection_dtor
      (Some (set_que [Sample.session 2 0] Sample.two_idle))
      (Some (Sample.session 1 0)) (Sample.server_down 4 8)
    = (Some (cnt_decr (set_que [Sample.session 2 0] Sample.two_idle)), ev)
    /\ ev_delete (Sample.session 1 0) ∈ ev.
Proof.
  destruct (return_of_broken_session_drops_it (Sample.server_up 3 5)
              (Sample.server_down 4 8) Sample.two_idle (Sample.session 1 0)
              [Sample.session 2 0] eq_refl eq_refl eq_refl)
    as (ev & _ & H1 & _ & _ & H2 & _).
  - vm_compute. split; [reflexivity|discriminate].
  - exists ev. by split.
Defined.

Lemma exec_acquire_front w d conn rest :
  _connectionQue (pool w) = conn :: rest ->
  exists w' ev c',
    exec w (a_acquire d) = Some (w', ev)
    /\ _connectionQue (pool w') = rest
    /\ handles w' = handles w ++ [Some c']
    /\ addr c' = addr conn.
Proof.
  intros Hq.
  destruct (getconnection_take_front conn (set_que rest (pool w)) d)
    as (c' & p' & ev & Ht & Ha & Hq' & _).
  simpl. rewrite Hq, Ht. eexists _, _, c'. split; [reflexivity|]. by simpl.
Qed.

(** X19: idle sessions are lent first in, first out.  A series of
    [getconnection] calls, no longer than the idle queue, with no other
    activity in between, hands out the sessions in the order of the queue
    (whatever their probes and reconnections do), and leaves the
    remaining sessions queued in their order. *)
Theorem borrows_are_fifo (ds : list driver) : forall (w : world),
  (length ds <= length (_connectionQue (pool w)))%nat ->
  exists w',
    run w (map a_acquire ds) = Some w'
    /\ _connectionQue (pool w') = drop (length ds) (_connectionQue (pool w))
    /\ map addr (held (handles w'))
       = map addr (held (handles w))
         ++ take (length ds) (map addr (_connectionQue (pool w))).
Proof.
  induction ds as [|d ds IH]; intros w Hlen.
  - exists w. simpl. by rewrite drop_0, take_0, app_nil_r.
  - destruct (_connectionQue (pool w)) as [|conn rest] eqn:Hq;
      [simpl in Hlen; lia|].
    destruct (exec_acquire_front w d conn rest Hq)
      as (w1 & ev & c' & Hex & Hq1 & Hh1 & Ha).
    destruct (IH w1) as (w' & Hrun & Hq' & Hh').
    { rewrite Hq1. simpl in Hlen. lia. }
    exists w'. cbn [map run]. rewrite Hex. split; [exact Hrun|].
    rewrite Hq', Hh', Hq1, Hh1, held_app_some, map_app. simpl.
    rewrite Ha, <- app_assoc. by split.
Qed.

Lemma borrows_are_fifo_witness :
  exists w',
    run (World Sample.two_idle true [] [])
        [a_acquire (Sample.server_up 5 1); a_acquire (Sample.server_down 6 2)]
    = Some w'
    /\ _connectionQue (pool w') = []
    /\ map addr (held (handles w')) = [1%positive; 2%positive].
Proof.
  refine (borrows_are_fifo [Sample.server_up 5 1; Sample.server_down 6 2]
            (World Sample.two_idle true [] []) _).
  apply Nat.le_refl.
Defined.

(** ** Detached sessions stay counted *)

Lemma held_release_length (hs : list PooledConnection) (i : nat)
    (c : connection) :
  hs !! i = Some (Some c) ->
  Z.of_nat (length (held (<[i := None]> hs)))
  = Z.of_nat (length (held hs)) - 1.
Proof.
  intros Hi. pose proof (held_release_perm hs i c Hi) as Hp.
  apply Permutation_length in Hp. simpl in Hp. lia.
Qed.

Lemma exec_counted_with_detached w a w' ev :
  counted_with_detached w -> no_raise a -> exec w a = Some (w', ev) ->
  counted_with_detached w' /\ max_size w' = max_size w.
Proof.
  unfold counted_with_detached, idle_count, live_count, detached_count,
    live, total, max_size.
  intros (Hsum & Hle & Hmax) Hreg.
  rewrite <- Z.add_assoc in Hsum.
  assert (HL : 0 <= Z.of_nat (length (held (handles w)))
                    + Z.of_nat (length (raw w))) by lia.
  destruct a as [d|d|d|i d|i|ds]; simpl.
  - (* producer *)
    pose proof (produce_body_counted (pool w) d _ Hsum HL Hle Hmax) as [H1 H2].
    pose proof (produce_body_max (pool w) d) as H3.
    destruct (workers w); [|done].
    destruct (_connectionQue (pool w)) eqn:Hq; [|done].
    destruct (produce_body (pool w) d) as [p ev']. intros [= <- <-].
    simpl in *. rewrite H3. repeat split; try lia.
  - (* getconnection finds a session *)
    destruct (_connectionQue (pool w)) as [|conn rest] eqn:Hq; [done|].
    simpl in Hreg.
    pose proof (getconnection_take_regular conn (set_que rest (pool w)) d Hreg)
      as [Hp [c Hc]].
    destruct (getconnection_take conn (set_que rest (pool w)) d)
      as [[h p] ev'].
    simpl in Hp, Hc. subst h p. intros [= <- <-]. simpl.
    rewrite held_app_some, length_app. simpl in *. repeat split; try lia.
  - (* getconnection times out *)
    destruct (_connectionQue (pool w)) as [|conn rest] eqn:Hq.
    + rewrite resume_snapshot. intros [= <- <-]. simpl. rewrite Hq.
      simpl in *. repeat split; try lia.
    + by destruct (getconnection_take conn (set_que rest (pool w)) d)
        as [[h p] ev'].
  - (* a handle is destroyed *)
    destruct (handles w !! i) as [[c|]|] eqn:Hi; [| |done].
    + unfold PooledConnection_dtor.
      destruct (deleter_alive (pool w) c d) as (p' & ev' & -> & Hm & Hcase).
      intros [= <- <-]. simpl.
      pose proof (held_delete _ _ _ Hi) as Hd.
      pose proof (held_lookup_pos _ _ _ Hi) as Hpos.
      destruct Hcase as [[-> ->]|[-> ->]]; rewrite Hm.
      * rewrite length_app. simpl. repeat split; try lia.
      * rewrite to_int_small by lia. repeat split; try lia.
    + simpl. intros [= <- <-]. simpl.
      pose proof (held_delete _ _ _ Hi) as Hd. repeat split; try lia.
  - (* release *)
    destruct (handles w !! i) as [[c|]|] eqn:Hi; [| |done].
    + simpl. intros [= <- <-]. simpl.
      pose proof (held_release_length _ _ _ Hi) as Hr.
      unfold PooledConnection in *. repeat split; try lia.
    + simpl. intros [= <- <-]. simpl.
      assert (Hr : held (<[i := None]> (handles w)) = held (handles w))
        by (by rewrite (held_release_none _ _ Hi)).
      unfold PooledConnection in *. rewrite Hr. repeat split; try lia.
  - (* one pass of the scanner *)
    destruct (workers w); [|done].
    pose proof (scan_pass_counted ds (pool w) _ Hsum HL Hle Hmax)
      as (H1 & H2 & H3).
    destruct (scan_pass ds (pool w)) as [p ev']. intros [= <- <-].
    simpl in *. rewrite H3 in *. repeat split; try lia.
Qed.

(** X20: a session detached with [release()] stays counted for ever.
    From a state in which the count is the number of idle, held and
    detached sessions and is at most [_maxSize] (an [int]), every run in
    which no [reconnect] call of [getconnection] raises, handle
    detachments included, keeps it so.  Hence the sessions the pool can
    have idle or lent at any time number at most [_maxSize] minus the
    number of detached sessions: each [release()] costs the pool one
    place that nothing gives back. *)
Theorem detached_sessions_stay_counted (w0 : world) (acts : list action)
    (w : world) :
  counted_with_detached w0 ->
  Forall no_raise acts ->
  run w0 acts = Some w ->
  counted_with_detached w
  /\ max_size w = max_size w0
  /\ idle_count w + live_count w <= max_size w0 - detached_count w
  /\ (length (raw w0) <= length (raw w))%nat.
Proof.
  intros Hc Hreg Hrun.
  assert (H : counted_with_detached w /\ max_size w = max_size w0
              /\ (length (raw w0) <= length (raw w))%nat).
  { revert w0 Hc Hrun. induction Hreg as [|a acts Ha _ IH]; intros w0 Hc; simpl.
    - by intros [= <-].
    - destruct (exec w0 a) as [[w1 ev]|] eqn:E; [|done].
      assert (Hraw : (length (raw w0) <= length (raw w1))%nat).
      { destruct a as [d|d|d|i d|i|ds]; simpl in E;
          repeat match type of E with
                 | context [match ?x with _ => _ end] => destruct x eqn:?
                 end; simplify_eq; simpl; lia. }
      apply exec_counted_with_detached in E as [Hc1 Hm1]; [|done..].
      intros Hrun. destruct (IH w1 Hc1 Hrun) as (? & ? & ?).
      split; [done|]. split; [congruence|lia]. }
  destruct H as (Hc' & Hm & Hr). split; [done|]. split; [done|].
  split; [|done].
  unfold counted_with_detached in Hc'. destruct Hc' as (H1 & H2 & _). lia.
Qed.

Lemma detached_sessions_stay_counted_witness :
  exists w,
    run (World Sample.two_idle true [] [])
        [a_acquire (Sample.server_up 5 1); a_release 0;
         a_drop 0 (Sample.server_up 6 2)]
    = Some w
    /\ idle_count w + live_count w <= 10 - 1.
Proof.
  eexists. split; [vm_compute; reflexivity|].
  refine (proj1 (proj2 (proj2 (detached_sessions_stay_counted
            (World Sample.two_idle true [] [])
            [a_acquire (Sample.server_up 5 1); a_release 0;
             a_drop 0 (Sample.server_up 6 2)] _ _ _ _)))).
  - vm_compute. repeat split; discriminate.
  - repeat constructor.
  - vm_compute. reflexivity.
Defined.
